(** * IPN documentation chatbot: the chat widget, the documentation
      explorer and the retrieval pipeline

    A shallow embedding of the TypeScript front end (the [Chatbot] component
    and the [Documentation] page) and of the retrieval pipeline that the
    design document describes, with the properties of each. *)

From Stdlib Require Import QArith Qcanon.
From stdpp Require Import base decidable option numbers list sorting strings pretty
  gmap.

Local Open Scope nat_scope.
#[local] Set Warnings "-register-all".

(** ** JavaScript strings

    A JavaScript string is a finite sequence of UTF-16 code units.  The
    functions below follow ECMAScript: [trim] removes WhiteSpace and
    LineTerminator code points (all of them in the basic plane, so working on
    code units is exact), [startsWith], [includes], [split] and [replace] take
    a string pattern. *)
Module JS.

Definition jsstring : Type := list N.

(** An ASCII literal as a JavaScript string. *)
Definition js (s : string) : jsstring :=
  Ascii.N_of_ascii <$> String.list_ascii_of_string s.

(** WhiteSpace (TAB, VT, FF, ZWNBSP and the Unicode category Zs) and
    LineTerminator (LF, CR, LS, PS). *)
Definition isWhiteSpace (c : N) : bool :=
  bool_decide (c ∈ [9; 10; 11; 12; 13; 32; 160; 5760; 8232; 8233; 8239; 8287;
                    12288; 65279]%N)
  || (bool_decide (8192 ≤ c)%N && bool_decide (c ≤ 8202)%N).

Fixpoint trimStart (s : jsstring) : jsstring :=
  match s with
  | [] => []
  | c :: s' => if isWhiteSpace c then trimStart s' else s
  end.

Definition trimEnd (s : jsstring) : jsstring :=
  reverse (trimStart (reverse s)).

Definition trim (s : jsstring) : jsstring := trimEnd (trimStart s).

Fixpoint startsWith (s p : jsstring) {struct p} : bool :=
  match p, s with
  | [], _ => true
  | _ :: _, [] => false
  | c :: p', d :: s' => bool_decide (c = d) && startsWith s' p'
  end.

Fixpoint includes (s p : jsstring) : bool :=
  startsWith s p ||
  match s with
  | [] => false
  | _ :: s' => includes s' p
  end.

(** [p] occurs somewhere in [s]: what [includes] decides. *)
Definition contains (s p : jsstring) : Prop :=
  ∃ before after, s = before ++ p ++ after.

(** [s.split(sep)] for a one-unit separator: always at least one piece. *)
Fixpoint split (sep : N) (s : jsstring) : list jsstring :=
  match s with
  | [] => [[]]
  | c :: s' =>
      if bool_decide (c = sep) then [] :: split sep s'
      else match split sep s' with
           | [] => [[c]]
           | piece :: pieces => (c :: piece) :: pieces
           end
  end.

(** [pieces.join(sep)]. *)
Fixpoint join (sep : jsstring) (pieces : list jsstring) : jsstring :=
  match pieces with
  | [] => []
  | [piece] => piece
  | piece :: rest => piece ++ sep ++ join sep rest
  end.

(** [s.replace(pat, rep)] with a string pattern: the first occurrence only
    (the replacement strings of the source hold no [$]). *)
Fixpoint replace (s pat rep : jsstring) : jsstring :=
  if startsWith s pat then rep ++ drop (length pat) s
  else match s with
       | [] => []
       | c :: s' => c :: replace s' pat rep
       end.

(** [xs.slice(start, end)]: negative indices count from the end, both are
    clamped to the array. *)
Definition relIndex (len : nat) (k : Z) : nat :=
  if bool_decide (k < 0)%Z then Z.to_nat (Z.max (Z.of_nat len + k) 0)
  else Nat.min (Z.to_nat k) len.

Definition slice {A} (start stop : Z) (xs : list A) : list A :=
  let from := relIndex (length xs) start in
  let to := relIndex (length xs) stop in
  take (to - from) (drop from xs).

(** The values handed to [JSON.stringify] in the source. *)
Inductive json : Type :=
  | JStr (s : jsstring)
  | JArr (items : list json)
  | JObj (fields : list (jsstring * json)).

Definition keys (v : json) : list jsstring :=
  match v with
  | JObj fields => fst <$> fields
  | _ => []
  end.

(** [v[k]]: the first property named [k]. *)
Definition field (k : jsstring) (v : json) : option json :=
  match v with
  | JObj fields => (λ kv, kv.2) <$> head (filter (λ kv, kv.1 = k) fields)
  | _ => None
  end.

End JS.
Import JS.

(** ** The chat widget ([Chatbot] component) *)
Module Chatbot.

(** JavaScript numbers that the component only stores and displays are
    taken as rationals. *)
Definition number : Type := Qc.

Inductive Category : Type := backend | frontend | other.

Definition category_str (c : Category) : jsstring :=
  match c with
  | backend => js "backend"
  | frontend => js "frontend"
  | other => js "other"
  end.

Record Source : Type := {
  file : jsstring;
  path : jsstring;
  category : Category;
  relevance_score : number
}.

Record ValidationMetrics : Type := {
  faithfulness : number;
  relevance : number;
  coherence : number;
  hallucination : number;
  toxicity : number;
  completeness : number;
  overall_quality : number
}.

Record MessageMetadata : Type := {
  retrieved_chunks : option number;
  used_context : option bool;
  processing_time_ms : option number;
  is_overview : option bool;
  validation : option ValidationMetrics
}.

Inductive Sender : Type := user | bot.

Record Message : Type := {
  id : jsstring;
  sender : Sender;
  text : jsstring;
  time : jsstring;
  sources : option (list Source);
  metadata : option MessageMetadata;
  isError : option bool;
  isStreaming : option bool
}.

Record ChatResponse : Type := {
  response : jsstring;
  response_sources : list Source;
  response_metadata : MessageMetadata
}.

(** *** Utility functions *)

Definition getCategoryIcon (category : jsstring) : jsstring :=
  if decide (category = js "backend") then [9881; 65039]%N
  else if decide (category = js "frontend") then [55357; 56507]%N
  else [55357; 56516]%N.

Definition getCategoryLabel (category : jsstring) : jsstring :=
  if decide (category = js "backend") then js "Backend"
  else if decide (category = js "frontend") then js "Frontend"
  else js "Documentation".

(** *** Component state and [handleSend] *)

Inductive ConnectionStatus : Type := checking | online | offline.

(** The state variables of one render of the component. *)
Record State : Type := {
  isOpen : bool;
  messages : list Message;
  userInput : jsstring;
  isTyping : bool;
  isLoading : bool;
  connectionStatus : ConnectionStatus
}.

Record ChatTurn : Type := { role : jsstring; content : jsstring }.

(** [getChatHistory] closes over the [messages] of the render that created
    it. *)
Definition getChatHistory (messages : list Message) : list ChatTurn :=
  (λ m, {| role := match sender m with
                   | user => js "user"
                   | bot => js "assistant"
                   end;
           content := text m |})
  <$> filter (λ m, id m ≠ js "welcome") messages.

Definition turn_json (t : ChatTurn) : json :=
  JObj [(js "role", JStr (role t)); (js "content", JStr (content t))].

Record Request : Type := { url : jsstring; body : json }.

(** What a [fetch] call settles to: the promise rejects, or a response
    arrives with its [ok] flag, its status and the value of [json()]
    ([None] when parsing the body rejects). *)
Inductive FetchResult : Type :=
  | Rejected
  | Responded (ok : bool) (status : N) (data : option ChatResponse).

(** Everything [handleSend] reads from outside the component: the results
    of [generateId()] and [getTime()] for the two messages it creates and
    what the two endpoints answer. *)
Record Env : Type := {
  userId : jsstring;
  userTime : jsstring;
  chatResult : FetchResult;
  legacyResult : FetchResult;
  replyId : jsstring;
  replyTime : jsstring
}.

(** What one call does: the state while the request is in flight (none when
    the call returns at once), the state once the call has finished, and the
    requests sent, in order. *)
Record Outcome : Type := {
  pending : option State;
  final : State;
  sent : list Request
}.

Definition chatRequest (message : jsstring) (history : list ChatTurn) : Request :=
  {| url := js "/api/chat";
     body := JObj [(js "message", JStr message);
                   (js "chat_history", JArr (turn_json <$> history))] |}.

Definition legacyRequest (message : jsstring) (history : list ChatTurn) : Request :=
  {| url := js "/query";
     body := JObj [(js "query", JStr message);
                   (js "chat_history", JArr (turn_json <$> history))] |}.

Definition errorText : jsstring :=
  js "Sorry, I encountered an error processing your request. Please make sure the RAG backend is running on port 5000.".

(** [handleSend], run from the render whose state is [st], with no other
    event handled until it has finished.  The state setters are applied in
    the order of the source, [setMessages] through its updater on the
    previous list.  [getChatHistory] is the callback of the same render: it
    reads [messages st], not the list that [setMessages] has just been asked
    to build, and [slice(0, -1)] drops the last turn of that. *)
Definition handleSend (st : State) (env : Env) : Outcome :=
  if bool_decide (trim (userInput st) = []) || isLoading st then
    {| pending := None; final := st; sent := [] |}
  else
    let userMessage :=
      {| id := userId env; sender := user; text := userInput st;
         time := userTime env; sources := None; metadata := None;
         isError := None; isStreaming := None |} in
    let history := slice 0 (-1) (getChatHistory (messages st)) in
    let useLegacy :=
      match chatResult env with
      | Rejected => true
      | Responded ok _ _ => negb ok
      end in
    let settled := if useLegacy then legacyResult env else chatResult env in
    let requests :=
      chatRequest (text userMessage) history ::
      (if useLegacy then [legacyRequest (text userMessage) history] else []) in
    let data :=
      match settled with
      | Rejected => None
      | Responded ok _ data => if ok then data else None
      end in
    let reply :=
      match data with
      | Some d =>
          {| id := replyId env; sender := bot; text := response d;
             time := replyTime env; sources := Some (response_sources d);
             metadata := Some (response_metadata d);
             isError := None; isStreaming := None |}
      | None =>
          {| id := replyId env; sender := bot; text := errorText;
             time := replyTime env; sources := None; metadata := None;
             isError := Some true; isStreaming := None |}
      end in
    {| pending := Some {| isOpen := isOpen st;
                          messages := messages st ++ [userMessage];
                          userInput := [];
                          isTyping := true;
                          isLoading := true;
                          connectionStatus := connectionStatus st |};
       final := {| isOpen := isOpen st;
                   messages := (messages st ++ [userMessage]) ++ [reply];
                   userInput := [];
                   isTyping := false;
                   isLoading := false;
                   connectionStatus := connectionStatus st |};
       sent := requests |}.

(** *** Sample data *)

(** A conversation for the examples: the welcome message, a question and
    its answer. *)
Definition msg (i : string) (who : Sender) (t : string) : Message :=
  {| id := js i; sender := who; text := js t; time := js "10:00";
     sources := None; metadata := None; isError := None;
     isStreaming := None |}.

Definition conversation : list Message :=
  [msg "welcome" bot "Hello!"; msg "a1" user "What is IPN?";
   msg "b1" bot "A pet food company."].

Definition state_of (msgs : list Message) (input : string) (loading : bool) : State :=
  {| isOpen := true; messages := msgs; userInput := js input;
     isTyping := loading; isLoading := loading; connectionStatus := online |}.

Definition env0 : Env :=
  {| userId := js "k3j9x1a"; userTime := js "10:01";
     chatResult := Rejected; legacyResult := Rejected;
     replyId := js "p0q8w2z"; replyTime := js "10:02" |}.

End Chatbot.

(** ** The documentation explorer ([Documentation] page) *)
Module Documentation.

(** The fields of [DocFile] and [DocumentationData] that the page reads
    (their declaration lives in [@/types/documentation]). *)
Record DocFile : Type := {
  id : jsstring;
  displayName : jsstring;
  fileName : jsstring;
  section : jsstring;
  subsection : jsstring;
  path : jsstring;
  category : jsstring;
  mdFile : jsstring
}.

Record DocumentationData : Type := { files : list DocFile }.

Inductive CategoryFilter : Type := all | backend | frontend | other.

Definition filter_str (c : CategoryFilter) : jsstring :=
  match c with
  | all => js "all"
  | backend => js "backend"
  | frontend => js "frontend"
  | other => js "other"
  end.

Section FilteredFiles.

(** [String.prototype.toLowerCase], the Unicode lower-case mapping, is
    left open: nothing below depends on which mapping it is. *)
Variable toLowerCase : jsstring → jsstring.

(** The search predicate of the second [filter]. *)
Definition matchesQuery (query : jsstring) (f : DocFile) : bool :=
  includes (toLowerCase (displayName f)) query
  || includes (toLowerCase (fileName f)) query
  || includes (toLowerCase (section f)) query
  || includes (toLowerCase (path f)) query.

Definition filteredFiles (docsData : option DocumentationData)
    (searchQuery : jsstring) (categoryFilter : CategoryFilter) : list DocFile :=
  match docsData with
  | None => []
  | Some docsData =>
      let files := files docsData in
      let files :=
        if decide (filter_str categoryFilter ≠ js "all")
        then filter (λ f, category f = filter_str categoryFilter) files
        else files in
      let files :=
        if bool_decide (trim searchQuery ≠ [])
        then
          let query := toLowerCase searchQuery in
          filter (λ f, matchesQuery query f = true) files
        else files in
      files
  end.

End FilteredFiles.

(** *** [parseMarkdownContent] *)

Record DocSection : Type := {
  title : jsstring;
  content : jsstring;
  codeBlocks : list jsstring
}.

(** The local variables of the loop. *)
Record ParseState : Type := {
  sections : list DocSection;
  currentSection : option DocSection;
  currentContent : list jsstring;
  inCodeBlock : bool;
  codeBlockContent : list jsstring;
  mainTitle : jsstring
}.

Definition initial : ParseState :=
  {| sections := []; currentSection := None; currentContent := [];
     inCodeBlock := false; codeBlockContent := []; mainTitle := [] |}.

Definition nl : jsstring := [10%N].

(** The template literal [___CODE_BLOCK_${n}___]; [n] is [NaN] when there is
    no current section ([undefined - 1]). *)
Definition placeholder (n : option nat) : jsstring :=
  js "___CODE_BLOCK_"
  ++ match n with Some n => js (pretty n) | None => js "NaN" end
  ++ js "___".

(** The section with its content filled in, as it is pushed. *)
Definition close (cs : DocSection) (currentContent : list jsstring) : DocSection :=
  {| title := title cs;
     content := trim (join nl currentContent);
     codeBlocks := codeBlocks cs |}.

(** One iteration of the loop body on [line]. *)
Definition step (st : ParseState) (line : jsstring) : ParseState :=
  if startsWith (trim line) (js "```") then
    if negb (inCodeBlock st) then
      {| sections := sections st; currentSection := currentSection st;
         currentContent := currentContent st;
         inCodeBlock := true; codeBlockContent := [];
         mainTitle := mainTitle st |}
    else
      let current :=
        (λ cs, {| title := title cs; content := content cs;
                  codeBlocks := codeBlocks cs ++ [join nl (codeBlockContent st)] |})
        <$> currentSection st in
      {| sections := sections st; currentSection := current;
         currentContent :=
           currentContent st
           ++ [placeholder ((λ cs, length (codeBlocks cs) - 1) <$> current)];
         inCodeBlock := false; codeBlockContent := codeBlockContent st;
         mainTitle := mainTitle st |}
  else if inCodeBlock st then
    {| sections := sections st; currentSection := currentSection st;
       currentContent := currentContent st;
       inCodeBlock := true; codeBlockContent := codeBlockContent st ++ [line];
       mainTitle := mainTitle st |}
  else if startsWith line (js "# ") && negb (startsWith line (js "## ")) then
    {| sections := sections st; currentSection := currentSection st;
       currentContent := currentContent st;
       inCodeBlock := inCodeBlock st; codeBlockContent := codeBlockContent st;
       mainTitle := trim (replace line (js "# ") []) |}
  else if startsWith line (js "## ") then
    let sectionTitle := trim (replace line (js "## ") []) in
    if decide (sectionTitle = js "Overview") then
      {| sections := sections st; currentSection := None;
         currentContent := [];
         inCodeBlock := inCodeBlock st; codeBlockContent := codeBlockContent st;
         mainTitle := mainTitle st |}
    else
      {| sections :=
           match currentSection st with
           | Some cs => sections st ++ [close cs (currentContent st)]
           | None => sections st
           end;
         currentSection :=
           Some {| title := sectionTitle; content := []; codeBlocks := [] |};
         currentContent := [];
         inCodeBlock := inCodeBlock st; codeBlockContent := codeBlockContent st;
         mainTitle := mainTitle st |}
  else
    match currentSection st with
    | Some _ =>
        {| sections := sections st; currentSection := currentSection st;
           currentContent := currentContent st ++ [line];
           inCodeBlock := inCodeBlock st;
           codeBlockContent := codeBlockContent st;
           mainTitle := mainTitle st |}
    | None => st
    end.

(** After the loop: the last section is added. *)
Definition finish (st : ParseState) : list DocSection :=
  match currentSection st with
  | Some cs =>
      if decide (title cs ≠ js "Overview")
      then sections st ++ [close cs (currentContent st)]
      else sections st
  | None => sections st
  end.

Definition parseMarkdownContent (content : jsstring) : list DocSection :=
  finish (fold_left step (split 10 content) initial).

(** *** What the parser is measured against *)

(** A fence line opens or closes a code block; a section heading is a line
    that starts with [## ]. *)
Definition isFence (line : jsstring) : bool := startsWith (trim line) (js "```").
Definition isHeading (line : jsstring) : bool := startsWith line (js "## ").

(** After [lines], is a code block open?  Every fence line toggles. *)
Fixpoint inCode (lines : list jsstring) : bool :=
  match lines with
  | [] => false
  | line :: rest => xorb (isFence line) (inCode rest)
  end.

(** [FencedBlocks lines blocks]: [blocks] are the fenced code blocks of
    [lines], each as the lines between its opening and its closing fence; a
    fence that is never closed opens no block. *)
Inductive FencedBlocks : list jsstring → list (list jsstring) → Prop :=
  | fenced_none text :
      Forall (λ l, isFence l = false) text →
      FencedBlocks text []
  | fenced_open text opening code :
      Forall (λ l, isFence l = false) text →
      isFence opening = true →
      Forall (λ l, isFence l = false) code →
      FencedBlocks (text ++ opening :: code) []
  | fenced_block text opening code closing rest blocks :
      Forall (λ l, isFence l = false) text →
      isFence opening = true →
      Forall (λ l, isFence l = false) code →
      isFence closing = true →
      FencedBlocks rest blocks →
      FencedBlocks (text ++ opening :: code ++ closing :: rest) (code :: blocks).

(** No line of [body] is a section heading outside a code block. *)
Definition NoHeading (body : list jsstring) : Prop :=
  ∀ before line after,
    body = before ++ line :: after → inCode before = false →
    isHeading line = false.

(** *** The loop invariant *)

(** [body] leaves no block open and has the blocks [blocks]. *)
Definition ClosedBody (body : list jsstring) (blocks : list (list jsstring)) : Prop :=
  FencedBlocks body blocks ∧ inCode body = false.

(** [body] has the blocks [blocks] and then an open block holding [code]. *)
Definition OpenBody (body : list jsstring) (blocks : list (list jsstring))
    (code : list jsstring) : Prop :=
  ∃ text opening,
    body = text ++ opening :: code ∧ ClosedBody text blocks ∧
    isFence opening = true ∧ Forall (λ l, isFence l = false) code.

(** [sec] is headed by the section heading [heading], which comes after
    [before] and is followed by [body], which holds no further section
    heading. *)
Definition HeadedBy (sec : DocSection) (before : list jsstring)
    (heading : jsstring) (body : list jsstring) : Prop :=
  inCode before = false ∧
  (∃ text, heading = js "## " ++ text ∧ title sec = trim text) ∧
  title sec ≠ js "Overview" ∧
  NoHeading body.

(** [body] is what has been read of the section [sec] when [done] has been
    read. *)
Definition SectionBody (sec : DocSection) (done body : list jsstring) : Prop :=
  ∃ before heading, done = before ++ heading :: body ∧ HeadedBy sec before heading body.

(** A section that has been pushed: its body ran up to the next section
    heading. *)
Definition Finished (done : list jsstring) (sec : DocSection) : Prop :=
  ∃ read body next rest blocks,
    done = read ++ next :: rest ∧ SectionBody sec read body ∧
    inCode body = false ∧ isHeading next = true ∧
    FencedBlocks body blocks ∧ codeBlocks sec = join nl <$> blocks.

(** The section being read. *)
Definition Current (done : list jsstring) (st : ParseState) (cs : DocSection) : Prop :=
  ∃ body blocks,
    SectionBody cs done body ∧ codeBlocks cs = join nl <$> blocks ∧
    if inCodeBlock st then OpenBody body blocks (codeBlockContent st)
    else ClosedBody body blocks.

(** What holds of the loop variables when the lines [done] have been read. *)
Definition Invariant (done : list jsstring) (st : ParseState) : Prop :=
  inCodeBlock st = inCode done ∧
  Forall (Finished done) (sections st) ∧
  match currentSection st with
  | Some cs => Current done st cs
  | None => True
  end.

(** *** Sample data *)

Definition sample_page : jsstring := js "# T
## A
x
```js
let a;
```
## Overview
## B
y
```
## not a heading
```".

(** Lower-casing of the letters A to Z, for the examples. *)
Definition asciiLower (s : jsstring) : jsstring :=
  (λ c, if bool_decide (65 ≤ c)%N && bool_decide (c ≤ 90)%N
        then (c + 32)%N else c) <$> s.

Definition doc (name dir cat : string) : DocFile :=
  {| id := js name; displayName := js name; fileName := js name;
     section := js dir; subsection := []; path := js dir ++ js "/" ++ js name;
     category := js cat; mdFile := js name ++ js ".md" |}.

Definition library : DocumentationData :=
  {| files := [doc "CartController.php" "Controller" "backend";
               doc "Cart.vue" "components" "frontend";
               doc "Subscription.php" "Entity" "backend"] |}.

End Documentation.

(** ** The retrieval pipeline

    The Python back end (vector index, retriever, re-ranker) is not part of
    the sources at hand; its data and operations are taken from the design
    document, sections 3 and 4.  Similarity scores, floating-point numbers
    there, are rationals here. *)
Module Retrieval.

Local Open Scope Qc_scope.

Definition text : Type := list N.
Definition vector : Type := list Qc.

Inductive Category : Type := backend | frontend | other.

#[global] Instance Category_eq_dec : EqDecision Category.
Proof. solve_decision. Defined.

(** Modelled from the spec: the Chunk record of section 3; its [id] is its
    position in the snapshot. *)
Record Chunk : Type := {
  chunk_text : text;
  source_path : text;
  file_name : text;
  category : Category;
  chunk_index : nat
}.

(** Modelled from the spec: a RetrievalResult, a chunk with its score. *)
Record RetrievalResult : Type := {
  chunk : Chunk;
  relevance_score : Qc
}.

Inductive Error : Type :=
  | IndexNotReadyError
  | EmbeddingServiceError.

(** Modelled from the spec: one build of the index, the vectors and the
    chunk store, parallel collections joined by position (the chunk id). *)
Record Snapshot : Type := {
  vectors : list vector;
  chunks : list Chunk
}.

Definition well_formed (snap : Snapshot) : Prop :=
  length (vectors snap) = length (chunks snap).

(** Modelled from the spec: the similarity of two normalized vectors,
    their inner product. *)
Definition dot (u v : vector) : Qc :=
  foldr Qcplus 0 (zip_with Qcmult u v).

(** Modelled from the spec: the order of the results of [search].
    [(i, s)] comes before [(j, t)]: higher score first, then lower id. *)
Definition ranks_before (a b : nat * Qc) : Prop :=
  b.2 < a.2 ∨ (a.2 = b.2 ∧ (a.1 ≤ b.1)%nat).

#[global] Instance ranks_before_dec : RelDecision ranks_before.
Proof. intros a b. unfold ranks_before. apply _. Defined.

Definition matches (category_filter : option Category) (c : Chunk) : Prop :=
  match category_filter with
  | None => True
  | Some wanted => category c = wanted
  end.

#[global] Instance matches_dec f c : Decision (matches f c).
Proof. destruct f; simpl; apply _. Defined.

(** Modelled from the spec: the scored chunks that pass the category
    filter, by ascending id. *)
Definition candidates (snap : Snapshot) (query_vector : vector)
    (category_filter : option Category) : list (nat * Qc) :=
  (λ e, (e.1, dot query_vector e.2.1))
  <$> filter (λ e, matches category_filter e.2.2)
        (zip (seq 0 (length (vectors snap)))
             (zip (vectors snap) (chunks snap))).

(** Modelled from the spec: Vector Index [search] (section 4.2), whose
    implementation is in the absent back end.  It scores every indexed
    vector that passes the category filter, returns the [k] best ids,
    highest score first and lowest id first among equal scores, and fails
    with [IndexNotReadyError] before the first build or load. *)
Definition search (index : option Snapshot) (query_vector : vector) (k : nat)
    (category_filter : option Category) : Error + list (nat * Qc) :=
  match index with
  | None => inl IndexNotReadyError
  | Some snap =>
      inr (take k (merge_sort ranks_before
                     (candidates snap query_vector category_filter)))
  end.

(** Modelled from the spec: the similarity-threshold filter of the
    Retriever (section 4.3): every result with [score < similarity_threshold]
    is filtered out. *)
Definition threshold_filter (similarity_threshold : Qc)
    (results : list RetrievalResult) : list RetrievalResult :=
  filter (λ r, ¬ relevance_score r < similarity_threshold) results.

Section Retriever.

(** The Query Processor's expansion and the Embedding Provider are
    collaborators of the Retriever; the provider may be unavailable. *)
Variable expand : text → text.
Variable embed : text → option vector.
Variable overfetch_factor : nat.

Definition to_result (snap : Snapshot) (hit : nat * Qc) : option RetrievalResult :=
  (λ c, {| chunk := c; relevance_score := hit.2 |}) <$> chunks snap !! hit.1.

(** Modelled from the spec: Retriever [retrieve] (section 4.3): expand,
    embed, over-fetch from the index, filter by threshold; failures of the
    collaborators are propagated. *)
Definition retrieve (index : option Snapshot) (query : text) (top_k : nat)
    (similarity_threshold : Qc) : Error + list RetrievalResult :=
  match embed (expand query) with
  | None => inl EmbeddingServiceError
  | Some query_vector =>
      match search index query_vector (top_k * overfetch_factor) None with
      | inl e => inl e
      | inr hits =>
          inr (threshold_filter similarity_threshold
                 (omap (λ hit, index ≫= (λ snap, to_result snap hit)) hits))
      end
  end.

End Retriever.

(** Modelled from the spec: the fixed category priority of the re-ranker. *)
Definition priority : list Category := [backend; frontend; other].

(** Modelled from the spec: the group of a category, its results in their
    incoming order. *)
Definition group (c : Category) (results : list RetrievalResult) : list RetrievalResult :=
  filter (λ r, category (chunk r) = c) results.

(** Modelled from the spec: the round-robin of section 4.4.
    [rounds n groups] is [n] rounds, each taking the first remaining item of
    every group that is not exhausted, in the order of the groups. *)
Fixpoint rounds {A} (n : nat) (groups : list (list A)) : list A :=
  match n with
  | O => []
  | S n' => omap head groups ++ rounds n' (tail <$> groups)
  end.

(** Modelled from the spec: Re-ranker [diversify] (section 4.4): group by
    category, interleave the groups round-robin in priority order, stop at
    [target_count] items or when every group is exhausted (no group has more
    items than there are results, so that many rounds exhaust them all). *)
Definition diversify (results : list RetrievalResult) (target_count : nat)
    : list RetrievalResult :=
  take target_count
    (rounds (length results) ((λ c, group c results) <$> priority)).

(** *** Sample data *)

Definition result (name : string) (c : Category) (score : Q) : RetrievalResult :=
  {| chunk := {| chunk_text := []; source_path := js name; file_name := js name;
                 category := c; chunk_index := 0 |};
     relevance_score := Q2Qc score |}.

Definition piece (name : string) (c : Category) : Chunk :=
  {| chunk_text := []; source_path := js name; file_name := js name;
     category := c; chunk_index := 0 |}.

(** Three chunks; the first two are equally close to the query [[1; 0]]. *)
Definition corpus : Snapshot :=
  {| vectors := [[Q2Qc (3 # 5); Q2Qc (4 # 5)]; [Q2Qc (3 # 5); Q2Qc (-4 # 5)];
                 [Q2Qc 1; Q2Qc 0]];
     chunks := [piece "Cart.php" backend; piece "Cart.vue" frontend;
                piece "README.md" other] |}.

Definition empty_index : Snapshot := {| vectors := []; chunks := [] |}.

Definition ranked : list RetrievalResult :=
  [result "Cart.php" backend (9 # 10); result "Order.php" backend (8 # 10);
   result "Cart.vue" frontend (7 # 10)].

End Retrieval.

(** ** The rest of the chat widget: quality badge, health check, controls *)
Module ChatControls.
Import Chatbot.

(** The literals [0.8] and [0.6] denote these doubles; a comparison of
    doubles is the comparison of their values, so the thresholds are taken
    at their exact values. *)
Definition double_0_8 : number := Q2Qc (3602879701896397 # 4503599627370496).
Definition double_0_6 : number := Q2Qc (5404319552844595 # 9007199254740992).

(** [getScoreColor] and [getScoreIcon] of [ValidationMetricsBadge]. *)
Definition getScoreColor (score : number) : jsstring :=
  if decide (double_0_8 ≤ score)%Qc then js "#22c55e"
  else if decide (double_0_6 ≤ score)%Qc then js "#f59e0b"
  else js "#ef4444".

Definition getScoreIcon (score : number) : jsstring :=
  if decide (double_0_8 ≤ score)%Qc then [10003%N]
  else if decide (double_0_6 ≤ score)%Qc then js "~"
  else js "!".

(** [clearChat]: the conversation becomes one message with the id
    [welcome]; [now] is what [getTime()] returns. *)
Definition clearChat (now : jsstring) (st : State) : State :=
  {| isOpen := isOpen st;
     messages :=
       [ {| id := js "welcome"; sender := bot;
            text := js "Chat cleared! How can I help you today?";
            time := now; sources := None; metadata := None;
            isError := None; isStreaming := None |} ];
     userInput := userInput st;
     isTyping := isTyping st;
     isLoading := isLoading st;
     connectionStatus := connectionStatus st |}.

(** The quick suggestions. *)
Definition suggestions : list jsstring :=
  [ js "How does the subscription system work?";
    js "Give me an overview of IPN codebase";
    js "How many controllers are there?";
    js "List all entities";
    js "Show cart components";
    js "API authentication flow" ].

(** [handleSuggestionClick]: the suggestion replaces the input (the focus
    it then requests is no state of the component). *)
Definition handleSuggestionClick (suggestion : jsstring) (st : State) : State :=
  {| isOpen := isOpen st;
     messages := messages st;
     userInput := suggestion;
     isTyping := isTyping st;
     isLoading := isLoading st;
     connectionStatus := connectionStatus st |}.

(** The [disabled] attribute of the send button. *)
Definition sendDisabled (st : State) : bool :=
  bool_decide (trim (userInput st) = []) || isLoading st.

(** [checkHealth]: [/api/health] first; the legacy [/health] only when the
    first fetch rejects.  Returns the new state and the URLs fetched. *)
Definition checkHealth (health legacy : FetchResult) (st : State)
    : State * list jsstring :=
  let set status :=
    {| isOpen := isOpen st; messages := messages st;
       userInput := userInput st; isTyping := isTyping st;
       isLoading := isLoading st; connectionStatus := status |} in
  match health with
  | Responded ok _ _ =>
      (set (if ok then online else offline), [js "/api/health"])
  | Rejected =>
      match legacy with
      | Responded ok _ _ =>
          (set (if ok then online else offline),
           [js "/api/health"; js "/health"])
      | Rejected => (set offline, [js "/api/health"; js "/health"])
      end
  end.

(** The keys of [server.proxy] in [vite.config.ts], and Vite's test of a
    request URL against a key that is no regular expression: the URL starts
    with it. *)
Definition proxy : list jsstring := [js "/api"; js "/query"; js "/health"].

Definition proxied (url : jsstring) : bool :=
  existsb (λ context, startsWith url context) proxy.

End ChatControls.

(** ** The earlier chat widget (the second [Chatbot] component) *)
Module LegacyChatbot.

Inductive Sender : Type := user | bot.

Record Message : Type := {
  sender : Sender;
  text : jsstring;
  time : jsstring
}.

Record State : Type := {
  isOpen : bool;
  messages : list Message;
  userInput : jsstring;
  isTyping : bool
}.

(** What the [fetch] of [/query] settles to: it rejects, or a response
    arrives whose [json()] gives an object with a [response] string ([None]
    when parsing rejects).  The status of the response is never read. *)
Inductive FetchResult : Type :=
  | Rejected
  | Responded (status : N) (response : option jsstring).

Record Env : Type := {
  userTime : jsstring;
  queryResult : FetchResult;
  replyTime : jsstring
}.

Record Outcome : Type := {
  pending : option State;
  final : State;
  sent : list Chatbot.Request
}.

Definition queryRequest (query : jsstring) : Chatbot.Request :=
  {| Chatbot.url := js "/query";
     Chatbot.body := JObj [(js "query", JStr query)] |}.

(** [handleSend] of the earlier widget, with no other event handled until
    it has finished. *)
Definition handleSend (st : State) (env : Env) : Outcome :=
  if bool_decide (trim (userInput st) = []) then
    {| pending := None; final := st; sent := [] |}
  else
    let userMessage :=
      {| sender := user; text := userInput st; time := userTime env |} in
    let reply :=
      match queryResult env with
      | Responded _ (Some answer) =>
          {| sender := bot; text := answer; time := replyTime env |}
      | _ =>
          {| sender := bot;
             text := js "Sorry, I encountered an error. Please try again.";
             time := replyTime env |}
      end in
    {| pending := Some {| isOpen := isOpen st;
                          messages := messages st ++ [userMessage];
                          userInput := [];
                          isTyping := true |};
       final := {| isOpen := isOpen st;
                   messages := (messages st ++ [userMessage]) ++ [reply];
                   userInput := [];
                   isTyping := false |};
       sent := [queryRequest (userInput st)] |}.

End LegacyChatbot.

(** ** The documentation explorer: the sidebar tree *)
Module DocumentationTree.
Import Documentation.

(** [expandedSections] is a plain object used as a map from section names
    to booleans.  Reading [expandedSections[name]] finds the object's own
    property or else a property of [Object.prototype]; all of the latter
    are truthy. *)
Definition prototypeKeys : list jsstring :=
  [ js "constructor"; js "__defineGetter__"; js "__defineSetter__";
    js "hasOwnProperty"; js "__lookupGetter__"; js "__lookupSetter__";
    js "isPrototypeOf"; js "propertyIsEnumerable"; js "toString";
    js "valueOf"; js "__proto__"; js "toLocaleString" ].

(** Is [expandedSections[name]] truthy? *)
Definition isExpanded (expandedSections : gmap jsstring bool) (name : jsstring) : bool :=
  match expandedSections !! name with
  | Some flag => flag
  | None => bool_decide (name ∈ prototypeKeys)
  end.

(** [toggleSection]: the updater [{...prev, [section]: !prev[section]}]. *)
Definition toggleSection (section : jsstring) (prev : gmap jsstring bool)
    : gmap jsstring bool :=
  <[section := negb (isExpanded prev section)]> prev.

(** The files of one entry of the category tree. *)
Definition categoryFiles (docsData : DocumentationData) (categoryName : jsstring)
    : list DocFile :=
  filter (λ f, section f = categoryName) (files docsData).

Definition visibleFiles (docsData : DocumentationData)
    (categoryFilter : CategoryFilter) (categoryName : jsstring) : list DocFile :=
  if decide (filter_str categoryFilter = js "all")
  then categoryFiles docsData categoryName
  else filter (λ f, category f = filter_str categoryFilter)
         (categoryFiles docsData categoryName).

(** What is rendered for one entry: nothing when no file is visible, else
    the count of the badge, the files listed when the entry is expanded and
    the number announced by "+ n more files...". *)
Record TreeEntry : Type := {
  badge : nat;
  listed : option (list DocFile);
  more : option nat
}.

Definition treeEntry (docsData : DocumentationData)
    (categoryFilter : CategoryFilter) (expandedSections : gmap jsstring bool)
    (categoryName : jsstring) : option TreeEntry :=
  let visibleFiles := visibleFiles docsData categoryFilter categoryName in
  if decide (length visibleFiles = 0) then None
  else if isExpanded expandedSections categoryName then
    Some {| badge := length visibleFiles;
            listed := Some (slice 0 50 visibleFiles);
            more := if decide (50 < length visibleFiles)
                    then Some (length visibleFiles - 50) else None |}
  else
    Some {| badge := length visibleFiles; listed := None; more := None |}.

End DocumentationTree.

(** ** The markdown parser: which headings become sections *)
Module ParserOutline.
Import Documentation.

(** The titles of the section headings of [lines], in order; a code block
    is open at the start iff [open]. *)
Fixpoint headingTitles (open : bool) (lines : list jsstring) : list jsstring :=
  match lines with
  | [] => []
  | line :: rest =>
      if isFence line then headingTitles (negb open) rest
      else if open then headingTitles open rest
      else if isHeading line then trim (drop 3 line) :: headingTitles open rest
      else headingTitles open rest
  end.

(** The titles that survive: those that are not "Overview" and are not
    directly followed by an "Overview" heading. *)
Fixpoint survivors (titles : list jsstring) : list jsstring :=
  match titles with
  | [] => []
  | title :: rest =>
      (if decide (title ≠ js "Overview" ∧ head rest ≠ Some (js "Overview"))
       then [title] else [])
      ++ survivors rest
  end.

(** What holds of the loop variables, as to titles, when [done] has been
    read. *)
Definition OutlineInvariant (done : list jsstring) (st : ParseState) : Prop :=
  inCodeBlock st = inCode done ∧
  title <$> (sections st ++ option_list (currentSection st))
    = survivors (headingTitles false done) ∧
  match currentSection st with
  | Some cs =>
      title cs ≠ js "Overview" ∧
      last (headingTitles false done) = Some (title cs)
  | None =>
      last (headingTitles false done) = None ∨
      last (headingTitles false done) = Some (js "Overview")
  end.

(** Titles and contents are fixed points of [trim]. *)
Definition Trimmed (sec : DocSection) : Prop :=
  trim (title sec) = title sec ∧ trim (content sec) = content sec.

(** Two states of the loop that differ at most in [mainTitle]. *)
Definition sameButTitle (st1 st2 : ParseState) : Prop :=
  sections st1 = sections st2 ∧
  currentSection st1 = currentSection st2 ∧
  currentContent st1 = currentContent st2 ∧
  inCodeBlock st1 = inCodeBlock st2 ∧
  codeBlockContent st1 = codeBlockContent st2.

End ParserOutline.

(** ** The documentation explorer: [renderFormattedContent] *)
Module Renderer.
Import Documentation.

(** The pieces of a line with inline code. *)
Inductive Part : Type :=
  | SpanPart (text : jsstring)
  | CodePart (text : jsstring).

(** The elements pushed, each with what its key is built from: the index
    of the line, or for a list the number of elements before it. *)
Inductive Element : Type :=
  | ListElement (position : nat) (items : list jsstring)
  | CodeElement (idx codeIndex : nat) (code : jsstring)
  | MethodElement (idx : nat) (signature : jsstring)
  | LabelElement (idx : nat) (label color : jsstring)
  | PathElement (idx : nat) (pathContent : jsstring)
  | InlineElement (idx : nat) (parts : list Part)
  | ParagraphElement (idx : nat) (line : jsstring).

Inductive ListType : Type := ul | ol.

(** The variables [elements], [currentList] and [listType]. *)
Record RenderState : Type := {
  elements : list Element;
  currentList : list jsstring;
  listType : option ListType
}.

Definition start : RenderState :=
  {| elements := []; currentList := []; listType := None |}.

Definition flushList (st : RenderState) : RenderState :=
  if decide (0 < length (currentList st)) then
    {| elements :=
         elements st ++ [ListElement (length (elements st)) (currentList st)];
       currentList := [];
       listType := None |}
  else st.

Definition push (e : Element) (st : RenderState) : RenderState :=
  {| elements := elements st ++ [e];
     currentList := currentList st;
     listType := listType st |}.

(** [\d]. *)
Definition isDigit (c : N) : bool := bool_decide (48 ≤ c)%N && bool_decide (c ≤ 57)%N.

(** The longest run of digits at the start. *)
Fixpoint digitsOf (s : jsstring) : jsstring :=
  match s with
  | c :: s' => if isDigit c then c :: digitsOf s' else []
  | [] => []
  end.

(** [parseInt] of a string of digits (exact; array indices are far below
    the numbers that a double cannot hold). *)
Definition parseInt (digits : jsstring) : nat :=
  fold_left (λ n c, 10 * n + N.to_nat (c - 48)) digits 0.

(** [/___CODE_BLOCK_(\d+)___/] tried at the start of [s]: the captured
    digits. *)
Definition matchCodeBlockAt (s : jsstring) : option jsstring :=
  if startsWith s (js "___CODE_BLOCK_") then
    let rest := drop (length (js "___CODE_BLOCK_")) s in
    let digits := digitsOf rest in
    if bool_decide (digits ≠ [])
       && startsWith (drop (length digits) rest) (js "___")
    then Some digits else None
  else None.

(** [line.match(/___CODE_BLOCK_(\d+)___/)]: the first position that
    matches. *)
Fixpoint matchCodeBlock (s : jsstring) : option jsstring :=
  match matchCodeBlockAt s with
  | Some digits => Some digits
  | None =>
      match s with
      | [] => None
      | _ :: s' => matchCodeBlock s'
      end
  end.

(** [[a-zA-Z_]]. *)
Definition isNameChar (c : N) : bool :=
  (bool_decide (97 ≤ c)%N && bool_decide (c ≤ 122)%N)
  || (bool_decide (65 ≤ c)%N && bool_decide (c ≤ 90)%N)
  || bool_decide (c = 95%N).

(** [[^)]*\)$]: no closing parenthesis but the last character. *)
Fixpoint closesAtEnd (s : jsstring) : bool :=
  match s with
  | [] => false
  | c :: s' => if bool_decide (c = 41%N) then bool_decide (s' = []) else closesAtEnd s'
  end.

(** [[a-zA-Z_]*\([^)]*\)$]. *)
Fixpoint afterName (s : jsstring) : bool :=
  match s with
  | [] => false
  | c :: s' =>
      if isNameChar c then afterName s'
      else bool_decide (c = 40%N) && closesAtEnd s'
  end.

(** [/^[a-zA-Z_]+\([^)]*\)$/.test(s)]. *)
Definition isMethodSignature (s : jsstring) : bool :=
  match s with
  | c :: s' => isNameChar c && afterName s'
  | [] => false
  end.

(** [/^(Parameters|Returns|Example|Summary):/]. *)
Definition isLabel (s : jsstring) : bool :=
  startsWith s (js "Parameters:") || startsWith s (js "Returns:")
  || startsWith s (js "Example:") || startsWith s (js "Summary:").

Definition labelColor (label : jsstring) : jsstring :=
  if startsWith label (js "Parameters") then js "from-pink-500 to-rose-500"
  else if startsWith label (js "Returns") then js "from-cyan-500 to-blue-500"
  else if startsWith label (js "Example") then js "from-purple-500 to-indigo-500"
  else js "from-emerald-500 to-teal-500".

(** [s.replace(/`/g, '')]. *)
Definition removeBackticks (s : jsstring) : jsstring :=
  filter (λ c, c ≠ 96%N) s.

Definition inlineParts (line : jsstring) : list Part :=
  imap (λ i part, if decide (i `mod` 2 = 1) then CodePart part else SpanPart part)
       (split 96 line).

(** The callback of [lines.forEach], on the line [line] at index [idx]. *)
Definition renderLine (codeBlocks : list jsstring) (st : RenderState)
    (idx : nat) (line : jsstring) : RenderState :=
  if startsWith (trim line) (js "#") then st
  else if includes line (js "___CODE_BLOCK_") then
    let st := flushList st in
    match matchCodeBlock line with
    | Some digits =>
        match codeBlocks !! parseInt digits with
        | Some code =>
            if bool_decide (code ≠ [])
            then push (CodeElement idx (parseInt digits) code) st
            else st
        | None => st
        end
    | None => st
    end
  else if startsWith (trim line) (js "- ") then
    let st :=
      match listType st with
      | Some ul => st
      | _ =>
          {| elements := elements (flushList st);
             currentList := currentList (flushList st);
             listType := Some ul |}
      end in
    {| elements := elements st;
       currentList := currentList st ++ [drop 2 (trim line)];
       listType := listType st |}
  else if bool_decide (trim line ≠ []) && isMethodSignature (trim line) then
    push (MethodElement idx (trim line)) (flushList st)
  else if isLabel (trim line) then
    push (LabelElement idx (trim line) (labelColor (trim line))) (flushList st)
  else if startsWith (trim line) (js "**") && includes line (js "**:") then
    push (PathElement idx
            (removeBackticks (trim (replace (trim line) (js "**Path**:") []))))
         (flushList st)
  else if includes line [96%N] then
    push (InlineElement idx (inlineParts line)) (flushList st)
  else if bool_decide (trim line ≠ []) then
    push (ParagraphElement idx line) (flushList st)
  else st.

(** [lines.forEach(...)], from the index [idx] on. *)
Fixpoint forEach (codeBlocks : list jsstring) (idx : nat)
    (lines : list jsstring) (st : RenderState) : RenderState :=
  match lines with
  | [] => st
  | line :: rest =>
      forEach codeBlocks (S idx) rest (renderLine codeBlocks st idx line)
  end.

Definition renderFormattedContent (content : jsstring)
    (codeBlocks : list jsstring) : list Element :=
  elements (flushList (forEach codeBlocks 0 (split 10 content) start)).

(** *** What the renderer is measured against *)

(** A line of a bullet list, and a line that is skipped: blank, or a
    heading. *)
Definition isItem (line : jsstring) : bool :=
  negb (startsWith (trim line) (js "#"))
  && negb (includes line (js "___CODE_BLOCK_"))
  && startsWith (trim line) (js "- ").

Definition isSkipped (line : jsstring) : bool :=
  startsWith (trim line) (js "#") || forallb isWhiteSpace line.

(** A code element shows a block of [codeBlocks] that is not empty. *)
Definition validCode (codeBlocks : list jsstring) (e : Element) : Prop :=
  match e with
  | CodeElement _ codeIndex code =>
      codeBlocks !! codeIndex = Some code ∧ code ≠ []
  | _ => True
  end.

(** A list being collected is marked as such. *)
Definition collecting (st : RenderState) : Prop :=
  listType st = Some ul ∨ currentList st = [].

(** The React key of an element, [`list-${elements.length}`],
    [`code-${idx}`], [`method-${idx}`], [`label-${idx}`], [`path-${idx}`],
    [`inline-${idx}`] or [`text-${idx}`]: a kind and a number. *)
Definition kind (e : Element) : string :=
  match e with
  | ListElement _ _ => "list"
  | CodeElement _ _ _ => "code"
  | MethodElement _ _ => "method"
  | LabelElement _ _ _ => "label"
  | PathElement _ _ => "path"
  | InlineElement _ _ => "inline"
  | ParagraphElement _ _ => "text"
  end.

Definition number (e : Element) : nat :=
  match e with
  | ListElement position _ => position
  | CodeElement idx _ _ | MethodElement idx _ | LabelElement idx _ _
  | PathElement idx _ | InlineElement idx _ | ParagraphElement idx _ => idx
  end.

Definition key (e : Element) : jsstring :=
  js (kind e) ++ js "-" ++ js (pretty (number e)).

(** The numbers in the keys of the elements pushed before the line [idx]
    when there are [n] of them. *)
Definition keyBelow (idx n : nat) (e : Element) : Prop :=
  if decide (kind e = "list") then number e < n else number e < idx.

Definition keysBelow (idx : nat) (es : list Element) : Prop :=
  NoDup (key <$> es) ∧ Forall (keyBelow idx (length es)) es.

Definition partText (p : Part) : jsstring :=
  match p with SpanPart text | CodePart text => text end.

End Renderer.

(** * Properties *)

(** ** JavaScript strings *)
Section JSFacts.

Implicit Types s p : jsstring.

Lemma trimStart_nil s : trimStart s = [] ↔ forallb isWhiteSpace s = true.
Proof.
  induction s as [|c s IH]; simpl; [tauto|].
  destruct (isWhiteSpace c); simpl; [exact IH | split; discriminate].
Qed.

(** What [trimStart] leaves starts with a character that is no white
    space. *)
Lemma trimStart_head s c r :
  trimStart s = c :: r → isWhiteSpace c = false.
Proof.
  induction s as [|d s IH]; simpl; [discriminate|].
  destruct (isWhiteSpace d) eqn:Hd; [exact IH|].
  intros [= <- _]. exact Hd.
Qed.

Lemma forallb_reverse {A} (f : A → bool) (l : list A) :
  forallb f (reverse l) = forallb f l.
Proof.
  induction l as [|x l IH]; [done|].
  rewrite reverse_cons, forallb_app, IH. simpl.
  rewrite andb_true_r. apply andb_comm.
Qed.

Lemma trimEnd_nil s : trimEnd s = [] ↔ forallb isWhiteSpace s = true.
Proof.
  unfold trimEnd. rewrite <- (forallb_reverse _ s), <- trimStart_nil.
  split; [|intros ->; done].
  intros H. apply (f_equal reverse) in H.
  by rewrite reverse_involutive in H.
Qed.

(** [!s.trim()] holds exactly for the empty and the white-space-only
    strings. *)
Lemma trim_nil s : trim s = [] ↔ forallb isWhiteSpace s = true.
Proof.
  unfold trim. rewrite trimEnd_nil, <- (trimStart_nil s).
  destruct (trimStart s) as [|c r] eqn:E; [split; reflexivity|].
  apply trimStart_head in E. simpl. rewrite E. split; discriminate.
Qed.

(** A string that starts with a character that is no white space keeps it
    under [trim]. *)
Lemma trim_head c s :
  isWhiteSpace c = false → ∃ r, trim (c :: s) = c :: r.
Proof.
  intros Hc. unfold trim. simpl. rewrite Hc. unfold trimEnd.
  rewrite reverse_cons.
  assert (∀ t, ∃ r, trimStart (t ++ [c]) = r ++ [c]) as Hsnoc.
  { induction t as [|d t [r IH]]; simpl.
    - rewrite Hc. by exists [].
    - destruct (isWhiteSpace d); [by exists r|].
      by exists (d :: t). }
  destruct (Hsnoc (reverse s)) as [r ->].
  rewrite reverse_app. simpl. eauto.
Qed.

Lemma startsWith_prefix s p : startsWith s p = true ↔ ∃ r, s = p ++ r.
Proof.
  revert s. induction p as [|c p IH]; intros s; simpl.
  - split; eauto.
  - destruct s as [|d s]; [split; [done | intros [? [=]]]|].
    rewrite andb_true_iff, bool_decide_eq_true, IH. split.
    + intros [-> [r ->]]. eauto.
    + intros [r [= -> ->]]. eauto.
Qed.

Lemma includes_contains s p : includes s p = true ↔ contains s p.
Proof.
  unfold contains. induction s as [|c s IH]; simpl.
  - rewrite orb_false_r, startsWith_prefix. split.
    + intros [r ->]. by exists [], r.
    + intros (b & a & H). symmetry in H.
      apply app_eq_nil in H as [-> H]. apply app_eq_nil in H as [-> ->].
      by exists [].
  - rewrite orb_true_iff, startsWith_prefix, IH. split.
    + intros [[r ->] | (b & a & ->)]; [by exists [], r | by exists (c :: b), a].
    + intros ([|d b] & a & H); simpl in H.
      * left. by exists a.
      * injection H as -> ->. right. eauto.
Qed.

(** [xs.slice(0, -1)] drops the last element, if there is one. *)
Lemma slice_0_m1 {A} (xs : list A) :
  slice 0 (-1) xs = take (length xs - 1) xs.
Proof.
  unfold slice, relIndex. simpl.
  rewrite Nat.sub_0_r. f_equal. lia.
Qed.

End JSFacts.

Example split_lines :
  split 10 (js "a
b") = [js "a"; js "b"].
Proof. reflexivity. Qed.

Example trim_sample : trim (js "  ## x  ") = js "## x".
Proof. reflexivity. Qed.

(** ** The chat widget *)
Module ChatbotFacts.
Import Chatbot.

(** C7. Every source record carries one of the categories backend,
    frontend and other, and the category mapping is total:
    [getCategoryLabel] gives "Backend" for exactly "backend", "Frontend" for
    exactly "frontend" and "Documentation" for every other string, and
    [getCategoryIcon] has the same three cases. *)
Theorem category_mapping_total :
  (∀ src : Source,
     category_str (category src) ∈ [js "backend"; js "frontend"; js "other"]) ∧
  (∀ c, getCategoryLabel c = js "Backend" ↔ c = js "backend") ∧
  (∀ c, getCategoryLabel c = js "Frontend" ↔ c = js "frontend") ∧
  (∀ c, getCategoryLabel c = js "Documentation"
        ↔ c ≠ js "backend" ∧ c ≠ js "frontend") ∧
  (∀ c, getCategoryIcon c = [9881; 65039]%N ↔ c = js "backend") ∧
  (∀ c, getCategoryIcon c = [55357; 56507]%N ↔ c = js "frontend") ∧
  (∀ c, getCategoryIcon c = [55357; 56516]%N
        ↔ c ≠ js "backend" ∧ c ≠ js "frontend").
Proof.
  split.
  { intros [? ? [] ?]; simpl; rewrite !elem_of_cons; auto. }
  repeat split;
    unfold getCategoryLabel, getCategoryIcon in *;
    repeat case_decide; subst; try done; try discriminate;
    try (intros [? ?]; done).
Qed.

(** The labels shown for the three categories of a source record. *)
Lemma source_labels (src : Source) :
  getCategoryLabel (category_str (category src)) =
    match category src with
    | backend => js "Backend"
    | frontend => js "Frontend"
    | other => js "Documentation"
    end.
Proof. by destruct src as [? ? [] ?]. Qed.

(** When the guard of [handleSend] lets the call through, the first request
    goes to [/api/chat] with the history of the closure, less its last
    turn. *)
Lemma handleSend_sent st env :
  trim (userInput st) ≠ [] → isLoading st = false →
  ∃ rest,
    sent (handleSend st env) =
      chatRequest (userInput st)
        (take (length (getChatHistory (messages st)) - 1)
              (getChatHistory (messages st))) :: rest.
Proof.
  intros Hin Hload. unfold handleSend.
  rewrite bool_decide_eq_false_2, Hload by done. simpl.
  rewrite slice_0_m1. eauto.
Qed.


Lemma getChatHistory_app msgs more :
  getChatHistory (msgs ++ more) = getChatHistory msgs ++ getChatHistory more.
Proof. unfold getChatHistory. by rewrite filter_app, fmap_app. Qed.

(** C9. With an empty or white-space-only input, or while a request is in
    flight, [handleSend] returns at once: no state variable changes, there is
    no in-flight state and no request is built. *)
Theorem handleSend_guard st env :
  forallb isWhiteSpace (userInput st) = true ∨ isLoading st = true →
  handleSend st env = {| pending := None; final := st; sent := [] |}.
Proof.
  intros H. unfold handleSend.
  destruct H as [H | ->].
  - apply trim_nil in H. by rewrite bool_decide_eq_true_2.
  - by rewrite orb_true_r.
Qed.

Lemma handleSend_guard_witness :
  handleSend (state_of conversation "  " false) env0 =
    {| pending := None; final := state_of conversation "  " false; sent := [] |} ∧
  handleSend (state_of conversation "next question" true) env0 =
    {| pending := None; final := state_of conversation "next question" true;
       sent := [] |}.
Proof.
  split.
  - apply (handleSend_guard (state_of conversation "  " false) env0).
    left. reflexivity.
  - apply (handleSend_guard (state_of conversation "next question" true) env0).
    right. reflexivity.
Defined.

Lemma nonblank_trim (s : jsstring) :
  forallb isWhiteSpace s = false → trim s ≠ [].
Proof. rewrite trim_nil. by intros ->. Qed.






(** C2. For a non-blank input (and no request in flight) the request to
    [/api/chat] is an object with exactly the fields [message], the raw
    input, and [chat_history], an array of objects with exactly the fields
    [role], "user" or "assistant", and [content]; the array is built from the
    messages of the conversation before the one just entered. *)
Theorem chat_request_shape st env :
  forallb isWhiteSpace (userInput st) = false → isLoading st = false →
  ∃ payload history rest,
    sent (handleSend st env) = {| url := js "/api/chat"; body := payload |} :: rest ∧
    keys payload = [js "message"; js "chat_history"] ∧
    field (js "message") payload = Some (JStr (userInput st)) ∧
    field (js "chat_history") payload = Some (JArr (turn_json <$> history)) ∧
    Forall (λ item, ∃ r c,
              item = JObj [(js "role", JStr r); (js "content", JStr c)] ∧
              (r = js "user" ∨ r = js "assistant"))
           (turn_json <$> history) ∧
    history `prefix_of` getChatHistory (messages st).
Proof.
  intros Hin Hload.
  destruct (handleSend_sent st env) as [rest Hsent];
    [by apply nonblank_trim | done |].
  eexists _, _, rest. split; [exact Hsent|].
  repeat split.
  - apply Forall_fmap, Forall_forall. intros t Ht.
    apply (subseteq_take _ _) in Ht.
    unfold getChatHistory in Ht. apply list_elem_of_fmap in Ht as (m & -> & _).
    eexists _, _. split; [reflexivity|]. simpl. destruct (sender m); auto.
  - apply prefix_take.
Qed.

Lemma chat_request_shape_witness :
  ∃ payload history rest,
    sent (handleSend (state_of conversation "And the cart?" false) env0) =
      {| url := js "/api/chat"; body := payload |} :: rest ∧
    keys payload = [js "message"; js "chat_history"] ∧
    field (js "message") payload = Some (JStr (js "And the cart?")) ∧
    field (js "chat_history") payload = Some (JArr (turn_json <$> history)) ∧
    Forall (λ item, ∃ r c,
              item = JObj [(js "role", JStr r); (js "content", JStr c)] ∧
              (r = js "user" ∨ r = js "assistant"))
           (turn_json <$> history) ∧
    history `prefix_of` getChatHistory conversation.
Proof.
  apply (chat_request_shape (state_of conversation "And the cart?" false) env0);
    reflexivity.
Defined.

(** On the sample conversation the history that is sent holds the question
    only. *)
Example sample_request :
  sent (handleSend (state_of conversation "And the cart?" false) env0) =
  [ chatRequest (js "And the cart?")
      [ {| role := js "user"; content := js "What is IPN?" |} ];
    legacyRequest (js "And the cart?")
      [ {| role := js "user"; content := js "What is IPN?" |} ] ].
Proof. reflexivity. Qed.

End ChatbotFacts.

(** ** The documentation explorer *)
Module DocumentationFacts.
Import Documentation.

Lemma filter_str_all cf : filter_str cf = js "all" ↔ cf = all.
Proof. destruct cf; split; (done || discriminate). Qed.

Section FilteredFiles.

Variable toLowerCase : jsstring → jsstring.

Lemma matchesQuery_contains query f :
  matchesQuery toLowerCase query f = true ↔
    contains (toLowerCase (displayName f)) query
    ∨ contains (toLowerCase (fileName f)) query
    ∨ contains (toLowerCase (section f)) query
    ∨ contains (toLowerCase (path f)) query.
Proof.
  unfold matchesQuery. rewrite !orb_true_iff, !includes_contains. tauto.
Qed.

(** C8. For a loaded data set, [filteredFiles] is a subsequence of
    [docsData.files] in the original order; a file is returned exactly
    when it is one of [docsData.files], its category is the filter's
    unless the filter is 'all', and, unless the trimmed query is empty,
    one of its lower-cased [displayName], [fileName], [section] and [path]
    contains the lower-cased query; with the filter 'all' and an empty
    query the result is [docsData.files]. *)
Theorem filteredFiles_spec (docsData : DocumentationData)
    (searchQuery : jsstring) (categoryFilter : CategoryFilter) :
  let result := filteredFiles toLowerCase (Some docsData) searchQuery categoryFilter in
  result `sublist_of` files docsData ∧
  (∀ f, f ∈ result ↔
     f ∈ files docsData ∧
     (categoryFilter = all ∨ category f = filter_str categoryFilter) ∧
     (trim searchQuery = []
      ∨ contains (toLowerCase (displayName f)) (toLowerCase searchQuery)
      ∨ contains (toLowerCase (fileName f)) (toLowerCase searchQuery)
      ∨ contains (toLowerCase (section f)) (toLowerCase searchQuery)
      ∨ contains (toLowerCase (path f)) (toLowerCase searchQuery))) ∧
  filteredFiles toLowerCase (Some docsData) [] all = files docsData.
Proof.
  simpl. split; [|split; [|reflexivity]].
  - case_decide; case_bool_decide;
      repeat (etrans; [apply sublist_filter|]); done.
  - intros f. rewrite <- matchesQuery_contains.
    case_decide as Hcat; case_bool_decide as Hq;
      rewrite ?list_elem_of_filter, ?filter_str_all in *.
    all: tauto.
Qed.

End FilteredFiles.

Example filteredFiles_sample :
  filteredFiles asciiLower (Some library) (js " CART") backend = [] ∧
  filteredFiles asciiLower (Some library) (js "CART") backend
    = [doc "CartController.php" "Controller" "backend"] ∧
  filteredFiles asciiLower (Some library) (js "  ") all = files library.
Proof. repeat split. Qed.

End DocumentationFacts.

(** ** The retrieval pipeline *)
Module RetrievalFacts.
Import Retrieval.

(** *** Round-robin interleaving *)
Section Rounds.

Context {A : Type}.
Implicit Types (g : list A) (gs : list (list A)).

Lemma tail_drop g k : tail (drop k g) = drop (S k) g.
Proof. revert g. induction k as [|k IH]; intros [|x g]; simpl; auto. Qed.

Lemma head_drop g k : head (drop k g) = g !! k.
Proof. by rewrite head_lookup, lookup_drop, Nat.add_0_r. Qed.

Lemma heads_drop gs k :
  omap head (drop k <$> gs) = omap (λ g, g !! k) gs.
Proof.
  induction gs as [|g gs IH]; [done|].
  rewrite fmap_cons. cbn [omap list_omap]. by rewrite head_drop, IH.
Qed.

(** Round [j] holds item [j] of every group that has one, in the order of
    the groups. *)
Lemma rounds_from k n gs :
  rounds n (drop k <$> gs) =
  mjoin ((λ j, omap (λ g, g !! j) gs) <$> seq k n).
Proof.
  revert k. induction n as [|n IH]; intros k; simpl; [done|].
  f_equal.
  - apply heads_drop.
  - rewrite <- IH. f_equal. rewrite <- list_fmap_compose.
    apply list_fmap_ext. intros _ g _. apply tail_drop.
Qed.

Lemma rounds_by_index n gs :
  rounds n gs = mjoin ((λ j, omap (λ g, g !! j) gs) <$> seq 0 n).
Proof.
  rewrite <- rounds_from. f_equal.
  rewrite <- (list_fmap_id gs) at 1. by apply list_fmap_ext.
Qed.

Lemma heads_tails_length gs :
  length (omap head gs) + sum_list (length <$> (tail <$> gs)) =
  sum_list (length <$> gs).
Proof.
  induction gs as [|[|x g] gs IH]; cbn in *; lia.
Qed.

(** With at least as many rounds as the longest group has items, every
    item is taken. *)
Lemma rounds_length n gs :
  Forall (λ g, length g ≤ n) gs →
  length (rounds n gs) = sum_list (length <$> gs).
Proof.
  revert gs. induction n as [|n IH]; intros gs Hgs; simpl.
  - induction Hgs as [|g gs Hg _ IHgs]; cbn in *; lia.
  - rewrite length_app, IH, heads_tails_length; [done|].
    apply Forall_fmap. eapply Forall_impl; [exact Hgs|].
    intros [|x g]; simpl; lia.
Qed.

Section Pure.

Variable P : A → Prop.
Context `{!∀ x, Decision (P x)}.

(** A group is pure when its items all satisfy [P] or all fail it. *)
Let pure g : Prop := Forall P g ∨ Forall (λ x, ¬ P x) g.

Lemma filter_all g : Forall P g → filter P g = g.
Proof.
  induction 1 as [|x g Hx _ IH]; [done|].
  by rewrite filter_cons_True, IH.
Qed.

Lemma filter_none g : Forall (λ x, ¬ P x) g → filter P g = [].
Proof.
  induction 1 as [|x g Hx _ IH]; [done|].
  by rewrite filter_cons_False.
Qed.

Lemma pure_tail g : pure g → pure (tail g).
Proof.
  intros [Hg|Hg]; [left|right]; destruct Hg; simpl;
    (constructor || assumption).
Qed.

Lemma filter_heads gs :
  Forall pure gs → filter P (omap head gs) = omap head (filter P <$> gs).
Proof.
  induction 1 as [|g gs Hg _ IH]; [done|].
  rewrite fmap_cons. cbn [omap list_omap].
  destruct Hg as [Hg|Hg].
  - rewrite (filter_all g Hg).
    destruct Hg as [|x g Hx _]; cbn [head]; [exact IH|].
    rewrite filter_cons_True by done. by f_equal.
  - rewrite (filter_none g Hg).
    destruct Hg as [|x g Hx _]; cbn [head]; [exact IH|].
    by rewrite filter_cons_False.
Qed.

Lemma filter_tails gs :
  Forall pure gs → filter P <$> (tail <$> gs) = tail <$> (filter P <$> gs).
Proof.
  induction 1 as [|g gs Hg _ IH]; [done|].
  rewrite !fmap_cons, IH. f_equal.
  destruct Hg as [Hg|Hg].
  - rewrite (filter_all g Hg). apply filter_all. by destruct Hg.
  - rewrite (filter_none g Hg). apply filter_none. by destruct Hg.
Qed.

(** Interleaving pure groups and keeping the items with [P] is the same
    as interleaving what each group keeps. *)
Lemma filter_rounds n gs :
  Forall pure gs → filter P (rounds n gs) = rounds n (filter P <$> gs).
Proof.
  revert gs. induction n as [|n IH]; intros gs Hgs; simpl; [done|].
  rewrite filter_app, filter_heads, IH, filter_tails; try done.
  apply Forall_fmap. eapply Forall_impl; [exact Hgs|]. apply pure_tail.
Qed.

End Pure.

(** Empty groups contribute nothing. *)
Lemma rounds_single n g before after :
  Forall (.= []) before → Forall (.= []) after →
  rounds n (before ++ g :: after) = take n g.
Proof.
  revert g. induction n as [|n IH]; intros g Hb Ha; [done|].
  cbn [rounds]. rewrite !fmap_app, fmap_cons, omap_app.
  assert (∀ l : list (list A), Forall (.= []) l →
            omap head l = [] ∧ tail <$> l = l) as Hnil.
  { induction 1 as [|? ? -> _ [IH1 IH2]]; [done|].
    rewrite fmap_cons. cbn [omap list_omap head tail]. by rewrite IH1, IH2. }
  destruct (Hnil _ Hb) as [-> ->]. cbn [omap list_omap].
  destruct (Hnil _ Ha) as [-> ->].
  rewrite IH by done. destruct g; simpl; [by destruct n | done].
Qed.

End Rounds.

(** *** The vector index *)

#[local] Instance ranks_before_total : Total ranks_before.
Proof.
  intros [i s] [j t]. unfold ranks_before. simpl.
  destruct (Qc_dec s t) as [[Hlt|Hgt]|Heq]; auto.
  destruct (Nat.le_ge_cases i j); auto.
Qed.

#[local] Instance ranks_before_trans : Transitive ranks_before.
Proof.
  intros [i s] [j t] [k u]. unfold ranks_before. simpl.
  intros [H1|[-> H1]] [H2|[-> H2]]; auto.
  - left. by etrans.
  - right. split; [done | lia].
Qed.

Lemma zip_fst_sublist {A B} (l : list A) (k : list B) :
  (zip l k).*1 `sublist_of` l.
Proof.
  revert k. induction l as [|x l IH]; intros [|y k]; simpl;
    try apply sublist_nil_l. by apply sublist_skip.
Qed.

(** The entries of the index are the triples of an id, its vector and its
    chunk. *)
Lemma entries_lookup snap i v c :
  (i, (v, c)) ∈ zip (seq 0 (length (vectors snap)))
                    (zip (vectors snap) (chunks snap))
  ↔ vectors snap !! i = Some v ∧ chunks snap !! i = Some c.
Proof.
  rewrite list_elem_of_lookup. split.
  - intros [j Hj].
    apply lookup_zip_with_Some in Hj as (i' & [v' c'] & [= -> -> ->] & Hi & Hvc).
    apply lookup_zip_with_Some in Hvc as (? & ? & [= <- <-] & Hv & Hc).
    apply lookup_seq in Hi as [-> _]. done.
  - intros [Hv Hc]. exists i. apply lookup_zip_with_Some.
    exists i, (v, c). split; [done|]. split.
    + apply lookup_seq. split; [done|]. by eapply lookup_lt_Some.
    + apply lookup_zip_with_Some. eauto.
Qed.

Lemma candidates_spec snap q f i s :
  (i, s) ∈ candidates snap q f ↔
  ∃ v c, vectors snap !! i = Some v ∧ chunks snap !! i = Some c
         ∧ matches f c ∧ s = dot q v.
Proof.
  unfold candidates. rewrite list_elem_of_fmap. split.
  - intros ([i' [v c]] & [= -> ->] & He). simpl.
    apply list_elem_of_filter in He as [Hm He].
    apply entries_lookup in He as [Hv Hc]. eauto 10.
  - intros (v & c & Hv & Hc & Hm & ->). exists (i, (v, c)). split; [done|].
    apply list_elem_of_filter. split; [done|]. by apply entries_lookup.
Qed.

Lemma candidates_NoDup snap q f : NoDup ((candidates snap q f).*1).
Proof.
  unfold candidates. rewrite <- list_fmap_compose.
  apply (sublist_NoDup _ (seq 0 (length (vectors snap)))); [apply NoDup_seq|].
  etrans; [|apply (zip_fst_sublist _ (zip (vectors snap) (chunks snap)))].
  rewrite (list_fmap_ext _ fst) by (by intros ? [? [? ?]] ?).
  apply (fmap_sublist fst), sublist_filter.
Qed.

Lemma filter_entries_length (P : Chunk → Prop) `{!∀ c, Decision (P c)}
    (vs : list vector) (cs : list Chunk) (start : nat) :
  length vs = length cs →
  length (filter (λ e : nat * (vector * Chunk), P e.2.2)
            (zip (seq start (length vs)) (zip vs cs)))
  = length (filter P cs).
Proof.
  revert cs start. induction vs as [|v vs IH]; intros [|c cs] start Hlen;
    try done. simpl in *. rewrite !filter_cons. simpl.
  injection Hlen as Hlen. specialize (IH cs (S start) Hlen).
  case_decide; simpl; by rewrite IH.
Qed.

(** In a well-formed snapshot every chunk that passes the filter is a
    candidate. *)
Lemma candidates_length snap q f :
  well_formed snap →
  length (candidates snap q f) = length (filter (matches f) (chunks snap)).
Proof.
  intros Hwf. unfold candidates. rewrite length_fmap.
  by apply (filter_entries_length (matches f)).
Qed.

Lemma filter_matches_None (cs : list Chunk) : filter (matches None) cs = cs.
Proof. apply filter_all, Forall_forall. by intros. Qed.

(** What [search] returns on a built index: a prefix of the candidates
    sorted by rank. *)
Lemma search_ready snap q k f :
  ∃ rest,
    search (Some snap) q k f = inr (take k (merge_sort ranks_before (candidates snap q f))) ∧
    take k (merge_sort ranks_before (candidates snap q f)) ++ rest
      ≡ₚ candidates snap q f ∧
    StronglySorted ranks_before
      (take k (merge_sort ranks_before (candidates snap q f)) ++ rest).
Proof.
  exists (drop k (merge_sort ranks_before (candidates snap q f))).
  rewrite take_drop. split; [done|]. split.
  - apply merge_sort_Permutation.
  - apply StronglySorted_merge_sort; apply _.
Qed.

Lemma search_length snap q k f :
  well_formed snap →
  length (take k (merge_sort ranks_before (candidates snap q f)))
  = k `min` length (filter (matches f) (chunks snap)).
Proof.
  intros Hwf.
  by rewrite length_take, merge_sort_Permutation, candidates_length.
Qed.

(** C4. On an index of [N] chunks and for [1 ≤ k ≤ N], [search] without a
    category filter returns exactly [k] pairs; every id is below [N] and
    occurs once, every score is the similarity of that chunk to the query,
    the pairs are in rank order (descending score, ascending id among equal
    scores), and every chunk left out ranks after every pair returned. *)
Theorem search_top_k snap q k :
  well_formed snap → 1 ≤ k ≤ length (chunks snap) →
  ∃ hits,
    search (Some snap) q k None = inr hits ∧
    length hits = k ∧
    Forall (λ hit, hit.1 < length (chunks snap)) hits ∧
    Forall (λ hit, ∃ v, vectors snap !! hit.1 = Some v ∧ hit.2 = dot q v) hits ∧
    NoDup (hits.*1) ∧
    StronglySorted ranks_before hits ∧
    (∀ a b, a ∈ hits → b ∈ candidates snap q None → b ∉ hits →
            ranks_before a b).
Proof.
  intros Hwf Hk.
  destruct (search_ready snap q k None) as (rest & Hsearch & Hperm & Hsorted).
  pose proof (search_length snap q k None Hwf) as Hlen.
  rewrite filter_matches_None in Hlen.
  set (hits := take k _) in *.
  assert (∀ hit, hit ∈ hits → hit ∈ candidates snap q None) as Hin.
  { intros hit Hhit. rewrite <- Hperm. apply elem_of_app. by left. }
  exists hits. repeat split; [lia|..].
  - apply Forall_forall. intros [i s] Hhit.
    apply Hin, candidates_spec in Hhit as (v & c & _ & Hc & _).
    by eapply lookup_lt_Some.
  - apply Forall_forall. intros [i s] Hhit.
    apply Hin, candidates_spec in Hhit as (v & c & Hv & _ & _ & ->). eauto.
  - pose proof (candidates_NoDup snap q None) as Hnodup.
    rewrite <- Hperm, fmap_app in Hnodup. by apply NoDup_app in Hnodup as [? _].
  - by apply StronglySorted_app_1_l in Hsorted.
  - intros a b Ha Hb Hnb. rewrite <- Hperm in Hb.
    apply elem_of_app in Hb as [Hb|Hb]; [done|].
    by eapply StronglySorted_app_1_elem_of.
Qed.

Lemma search_top_k_witness :
  ∃ hits,
    search (Some corpus) [Q2Qc 1; Q2Qc 0] 2 None = inr hits ∧
    length hits = 2 ∧
    Forall (λ hit, hit.1 < length (chunks corpus)) hits ∧
    Forall (λ hit, ∃ v, vectors corpus !! hit.1 = Some v
                        ∧ hit.2 = dot [Q2Qc 1; Q2Qc 0] v) hits ∧
    NoDup (hits.*1) ∧
    StronglySorted ranks_before hits ∧
    (∀ a b, a ∈ hits → b ∈ candidates corpus [Q2Qc 1; Q2Qc 0] None →
            b ∉ hits → ranks_before a b).
Proof.
  apply (search_top_k corpus [Q2Qc 1; Q2Qc 0] 2); [reflexivity | simpl; lia].
Defined.

(** On the sample corpus chunks 0 and 1 are equally close to the query: the
    lower id wins the second place. *)
Example search_sample :
  sum_map Datatypes.id (fmap (prod_map Datatypes.id this))
    (search (Some corpus) [Q2Qc 1; Q2Qc 0] 2 None)
  = inr [(2, 1%Q); (0, 3 # 5)].
Proof. vm_compute. reflexivity. Qed.

(** C5. On a built index [search] never fails: on the empty index and for
    [k = 0] it returns the empty sequence, and in general it returns
    [min k m] pairs, [m] being the number of chunks that pass the category
    filter, hence fewer than [k] only when fewer than [k] chunks exist or
    match. *)
Theorem search_total snap q k f :
  well_formed snap →
  search (Some empty_index) q k f = inr [] ∧
  search (Some snap) q 0 f = inr [] ∧
  ∃ hits,
    search (Some snap) q k f = inr hits ∧
    length hits = k `min` length (filter (matches f) (chunks snap)).
Proof.
  intros Hwf. split; [|split].
  - unfold search, candidates. simpl. by destruct k.
  - done.
  - eexists. split; [reflexivity|]. by apply search_length.
Qed.

Lemma search_total_witness :
  search (Some empty_index) [Q2Qc 1; Q2Qc 0] 2 (Some backend) = inr [] ∧
  search (Some corpus) [Q2Qc 1; Q2Qc 0] 0 (Some backend) = inr [] ∧
  ∃ hits,
    search (Some corpus) [Q2Qc 1; Q2Qc 0] 2 (Some backend) = inr hits ∧
    length hits = 2 `min` length (filter (matches (Some backend)) (chunks corpus)).
Proof.
  apply (search_total corpus [Q2Qc 1; Q2Qc 0] 2 (Some backend)). reflexivity.
Defined.

(** *** The retriever *)

(** C6. The threshold is an inclusive lower bound: of the candidates, the
    filter keeps a result exactly when its score is at least the threshold,
    so a score equal to the threshold is kept, and it removes a result
    exactly when its score is strictly below. *)
Theorem threshold_inclusive (similarity_threshold : Qc)
    (results : list RetrievalResult) (r : RetrievalResult) :
  r ∈ results →
  (relevance_score r = similarity_threshold →
     r ∈ threshold_filter similarity_threshold results) ∧
  (r ∈ threshold_filter similarity_threshold results
     ↔ (similarity_threshold ≤ relevance_score r)%Qc) ∧
  (r ∉ threshold_filter similarity_threshold results
     ↔ (relevance_score r < similarity_threshold)%Qc).
Proof.
  intros Hr. unfold threshold_filter. rewrite list_elem_of_filter.
  rewrite <- Qcle_ngt. split; [|split].
  - intros ->. split; [reflexivity | done].
  - tauto.
  - rewrite Qclt_nge. tauto.
Qed.

Lemma threshold_inclusive_witness :
  let r := result "Subscription.php" backend (35 # 100) in
  (relevance_score r = Q2Qc (35 # 100) →
     r ∈ threshold_filter (Q2Qc (35 # 100)) (r :: ranked)) ∧
  (r ∈ threshold_filter (Q2Qc (35 # 100)) (r :: ranked)
     ↔ (Q2Qc (35 # 100) ≤ relevance_score r)%Qc) ∧
  (r ∉ threshold_filter (Q2Qc (35 # 100)) (r :: ranked)
     ↔ (relevance_score r < Q2Qc (35 # 100))%Qc).
Proof.
  apply (threshold_inclusive (Q2Qc (35 # 100))
           (result "Subscription.php" backend (35 # 100) :: ranked)).
  apply list_elem_of_here.
Defined.

(** What [retrieve] returns has passed the threshold. *)
Lemma retrieve_above_threshold expand embed overfetch index query top_k t out :
  retrieve expand embed overfetch index query top_k t = inr out →
  Forall (λ r, (t ≤ relevance_score r)%Qc) out.
Proof.
  unfold retrieve. destruct (embed _); [|done]. destruct (search _ _ _ _); [done|].
  intros [= <-]. apply Forall_forall. intros r Hr.
  apply list_elem_of_filter in Hr as [Hr _]. by apply Qcle_ngt.
Qed.

(** A subsequence of a sorted list is sorted. *)
Lemma StronglySorted_sublist {A} (R : relation A) (k l : list A) :
  k `sublist_of` l → StronglySorted R l → StronglySorted R k.
Proof.
  induction 1 as [|x k l Hsub IH|x k l Hsub IH]; intros Hl; [done| |];
    apply StronglySorted_inv in Hl as [Hl Hx]; [|auto].
  constructor; [auto|].
  apply Forall_forall. intros y Hy. apply sublist_subseteq in Hsub.
  rewrite Forall_forall in Hx. auto.
Qed.

(** *** The re-ranker *)

Lemma group_all c rs : Forall (λ r, category (chunk r) = c) (group c rs).
Proof. apply Forall_forall. intros r Hr. by apply list_elem_of_filter in Hr as [? _]. Qed.

Lemma group_group c c' rs :
  group c (group c' rs) = if decide (c = c') then group c rs else [].
Proof.
  unfold group. rewrite list_filter_filter.
  case_decide as Hc.
  - subst. apply list_filter_iff. tauto.
  - induction rs as [|r rs IH]; [done|].
    rewrite filter_cons_False; [done | intros [? ?]; congruence].
Qed.

Lemma groups_length rs :
  sum_list (length <$> ((λ c, group c rs) <$> priority)) = length rs.
Proof.
  cbn. induction rs as [|r rs IH]; [done|].
  unfold group in *. rewrite !filter_cons.
  destruct (category (chunk r)); repeat case_decide; try done; simpl; lia.
Qed.

(** What the interleaving keeps of a category is that category's group. *)
Lemma group_rounds c rs :
  group c (rounds (length rs) ((λ c, group c rs) <$> priority)) = group c rs.
Proof.
  unfold group at 1. rewrite filter_rounds.
  - assert (take (length rs) (group c rs) = group c rs) as Htake
      by apply take_ge, length_filter.
    change (filter (λ r, category (chunk r) = c)) with (group c).
    cbn [fmap list_fmap priority]. rewrite !group_group.
    destruct c; simpl.
    + etrans; [apply (rounds_single _ _ [] [[]; []]); repeat constructor|done].
    + etrans; [apply (rounds_single _ _ [[]] [[]]); repeat constructor|done].
    + etrans; [apply (rounds_single _ _ [[]; []] []); repeat constructor|done].
  - apply Forall_fmap, Forall_forall. intros c' _. simpl.
    destruct (decide (c = c')) as [->|Hne]; [left; apply group_all|right].
    eapply Forall_impl; [apply group_all|]. simpl. congruence.
Qed.

Lemma diversify_prefix results target_count c :
  group c (diversify results target_count) `prefix_of` group c results.
Proof.
  unfold diversify. rewrite <- (group_rounds c results) at 1.
  set (l := rounds _ _). rewrite <- (take_drop target_count l) at 2.
  unfold group. rewrite filter_app. by apply prefix_app_r.
Qed.

(** C3. [diversify] emits round after round, round [j] being item [j] of
    the backend group, of the frontend group and of the other group, in this
    order and skipping the groups that have no such item, and stops at
    [target_count] items or when the groups are exhausted, that is after
    [min target_count (length results)] items; within a category the items
    keep the order, by descending score, in which they came in; on
    backend 0.9, backend 0.8, frontend 0.7 and [target_count = 2] the output
    is backend 0.9, frontend 0.7. *)
Theorem diversify_round_robin (results : list RetrievalResult) (target_count : nat) :
  diversify results target_count =
    take target_count
      (mjoin ((λ j, omap (λ c, group c results !! j) priority)
              <$> seq 0 (length results))) ∧
  length (diversify results target_count) = target_count `min` length results ∧
  (∀ c, group c (diversify results target_count) `prefix_of` group c results) ∧
  diversify ranked 2 =
    [result "Cart.php" backend (9 # 10); result "Cart.vue" frontend (7 # 10)].
Proof.
  split; [|split; [|split; [apply diversify_prefix | reflexivity]]];
    unfold diversify.
  - by rewrite rounds_by_index.
  - rewrite length_take, rounds_length, groups_length; [done|].
    apply Forall_fmap, Forall_forall. intros c _. apply length_filter.
Qed.

(** If the results come in by descending score, every category of the
    output is in descending score. *)
Corollary diversify_descending results target_count c :
  Sorted (λ a b, relevance_score b ≤ relevance_score a)%Qc results →
  Sorted (λ a b, relevance_score b ≤ relevance_score a)%Qc
         (group c (diversify results target_count)).
Proof.
  intros Hsorted.
  destruct (diversify_prefix results target_count c) as [rest Hrest].
  assert (StronglySorted (λ a b, relevance_score b ≤ relevance_score a)%Qc
            (group c results)) as Hgroup.
  { apply StronglySorted_sublist with results; [apply sublist_filter|].
    apply Sorted_StronglySorted; [|done].
    intros x y z ? ?. by etrans. }
  rewrite Hrest in Hgroup. apply StronglySorted_app_1_l in Hgroup.
  by apply StronglySorted_Sorted.
Qed.

End RetrievalFacts.

(** ** The markdown parser *)
Module ParserFacts.
Import Documentation.

Lemma inCode_app ls1 ls2 : inCode (ls1 ++ ls2) = xorb (inCode ls1) (inCode ls2).
Proof.
  induction ls1 as [|l ls1 IH]; simpl; [by destruct (inCode ls2)|].
  by rewrite IH, xorb_assoc.
Qed.

Lemma inCode_text text :
  Forall (λ l, isFence l = false) text → inCode text = false.
Proof. induction 1 as [|l text Hl _ IH]; simpl; [done|]. by rewrite Hl, IH. Qed.

(** A section heading is no fence. *)
Lemma heading_not_fence line : isHeading line = true → isFence line = false.
Proof.
  unfold isHeading, isFence. intros H.
  apply startsWith_prefix in H as [text ->].
  destruct (trim_head 35 ([35; 32]%N ++ text)) as [r Hr]; [done|].
  change (js "## " ++ text) with (35%N :: [35; 32]%N ++ text).
  by rewrite Hr.
Qed.

(** Text in front of the first fence changes no block. *)
Lemma FencedBlocks_text text lines blocks :
  Forall (λ l, isFence l = false) text →
  FencedBlocks lines blocks → FencedBlocks (text ++ lines) blocks.
Proof.
  intros Htext Hlines. destruct Hlines.
  - apply fenced_none. by apply Forall_app.
  - rewrite app_assoc. apply fenced_open; [by apply Forall_app|done..].
  - rewrite app_assoc. apply fenced_block; [by apply Forall_app|done..].
Qed.

(** The blocks of two parts, the first of which leaves no block open. *)
Lemma FencedBlocks_app lines1 blocks1 lines2 blocks2 :
  FencedBlocks lines1 blocks1 → inCode lines1 = false →
  FencedBlocks lines2 blocks2 →
  FencedBlocks (lines1 ++ lines2) (blocks1 ++ blocks2).
Proof.
  intros H1. induction H1 as [text Ht|text f code Ht Hf Hc
                              |text f code f' rest blocks Ht Hf Hc Hf' Hrest IH];
    intros Hclosed H2.
  - by apply FencedBlocks_text.
  - rewrite inCode_app in Hclosed. simpl in Hclosed.
    by rewrite (inCode_text _ Ht), (inCode_text _ Hc), Hf in Hclosed.
  - rewrite inCode_app in Hclosed. simpl in Hclosed.
    rewrite inCode_app in Hclosed. simpl in Hclosed.
    rewrite (inCode_text _ Ht), (inCode_text _ Hc), Hf, Hf' in Hclosed.
    simpl in Hclosed.
    rewrite <- !app_assoc. simpl. rewrite <- !app_assoc. simpl.
    apply fenced_block; auto.
    apply IH; [by destruct (inCode rest) | done].
Qed.

Lemma Finished_more done more sec :
  Finished done sec → Finished (done ++ more) sec.
Proof.
  intros (read & body & next & rest & blocks & -> & H).
  exists read, body, next, (rest ++ more), blocks.
  by rewrite <- app_assoc.
Qed.

Lemma NoHeading_nil : NoHeading [].
Proof. intros [|? ?] ? ? ?; discriminate. Qed.

Lemma NoHeading_snoc body line :
  NoHeading body → inCode body = true ∨ isHeading line = false →
  NoHeading (body ++ [line]).
Proof.
  intros Hbody Hline before l after Heq Hbefore.
  induction after as [|l' after' _] using rev_ind.
  - apply app_inj_tail in Heq as [<- <-].
    destruct Hline as [Hline|Hline]; congruence.
  - change (before ++ l :: after' ++ [l']) with (before ++ (l :: after') ++ [l']) in Heq.
    rewrite app_assoc in Heq. apply app_inj_tail in Heq as [-> _].
    by eapply Hbody.
Qed.

Lemma SectionBody_snoc sec sec' done body line :
  SectionBody sec done body → title sec' = title sec →
  inCode body = true ∨ isHeading line = false →
  SectionBody sec' (done ++ [line]) (body ++ [line]).
Proof.
  intros (before & heading & -> & Hb & Ht & Ho & Hn) Htitle Hline.
  exists before, heading. split; [by rewrite <- app_assoc|].
  unfold HeadedBy. rewrite Htitle. auto using NoHeading_snoc.
Qed.

(** In the body of a section the parser's flag is the state of the body. *)
Lemma SectionBody_inCode sec done body :
  SectionBody sec done body → inCode done = inCode body.
Proof.
  intros (before & heading & -> & Hb & (text & -> & _) & _).
  rewrite inCode_app. cbn [inCode]. rewrite Hb.
  rewrite (heading_not_fence (js "## " ++ text)); [done|].
  apply startsWith_prefix. eauto.
Qed.

Lemma ClosedBody_line body blocks line :
  ClosedBody body blocks → isFence line = false →
  ClosedBody (body ++ [line]) blocks.
Proof.
  intros [Hb Hc] Hl. split.
  - rewrite <- (app_nil_r blocks). apply FencedBlocks_app; [done..|].
    apply fenced_none. by repeat constructor.
  - rewrite inCode_app. simpl. by rewrite Hc, Hl.
Qed.

Lemma ClosedBody_open body blocks line :
  ClosedBody body blocks → isFence line = true →
  OpenBody (body ++ [line]) blocks [].
Proof. intros Hb Hl. by exists body, line. Qed.

Lemma OpenBody_line body blocks code line :
  OpenBody body blocks code → isFence line = false →
  OpenBody (body ++ [line]) blocks (code ++ [line]).
Proof.
  intros (text & opening & -> & Ht & Ho & Hc) Hl. exists text, opening.
  rewrite <- app_assoc. do 3 (split; [done|]).
  apply Forall_app. by repeat constructor.
Qed.

Lemma OpenBody_close body blocks code line :
  OpenBody body blocks code → isFence line = true →
  ClosedBody (body ++ [line]) (blocks ++ [code]).
Proof.
  intros (text & opening & -> & [Ht Htc] & Ho & Hc) Hl. split.
  - rewrite <- app_assoc. apply FencedBlocks_app; [done..|].
    apply (fenced_block [] opening code line [] []); try done.
    apply fenced_none. constructor.
  - rewrite !inCode_app. cbn [inCode].
    by rewrite Htc, Ho, Hl, (inCode_text _ Hc).
Qed.

Lemma OpenBody_blocks body blocks code :
  OpenBody body blocks code → FencedBlocks body blocks.
Proof.
  intros (text & opening & -> & [Ht Htc] & Ho & Hc).
  rewrite <- (app_nil_r blocks). apply FencedBlocks_app; [done..|].
  by apply (fenced_open [] opening code).
Qed.

Lemma OpenBody_inCode body blocks code :
  OpenBody body blocks code → inCode body = true.
Proof.
  intros (text & opening & -> & [Ht Htc] & Ho & Hc).
  rewrite inCode_app. simpl. by rewrite Htc, Ho, (inCode_text _ Hc).
Qed.

Lemma SectionBody_title sec sec' done body :
  SectionBody sec done body → title sec' = title sec →
  SectionBody sec' done body.
Proof.
  intros (before & heading & -> & Hb & Ht & Ho & Hn) Htitle.
  exists before, heading. unfold HeadedBy. rewrite Htitle. auto.
Qed.

Lemma replace_prefix pat text :
  replace (pat ++ text) pat [] = text.
Proof.
  assert (startsWith (pat ++ text) pat = true) as Hstart
    by (apply startsWith_prefix; eauto).
  destruct (pat ++ text) as [|c s] eqn:E; simpl; rewrite Hstart; simpl;
    rewrite <- E; by rewrite drop_app_length.
Qed.

Lemma heading_text line :
  isHeading line = true →
  ∃ text, line = js "## " ++ text ∧ trim (replace line (js "## ") []) = trim text.
Proof.
  intros H. apply startsWith_prefix in H as [text ->].
  exists text. by rewrite replace_prefix.
Qed.

(** One iteration keeps the invariant. *)
Lemma step_Invariant done st line :
  Invariant done st → Invariant (done ++ [line]) (step st line).
Proof.
  intros (Hcode & Hfin & Hcur).
  assert (Forall (Finished (done ++ [line])) (sections st)) as Hfin'.
  { eapply Forall_impl; [exact Hfin|]. intros sec. apply Finished_more. }
  assert (inCode (done ++ [line]) = xorb (inCode done) (isFence line)) as Hdone.
  { rewrite inCode_app. simpl. by rewrite xorb_false_r. }
  unfold Invariant, step. fold (isFence line). fold (isHeading line).
  rewrite Hdone, <- Hcode.
  destruct (isFence line) eqn:Hfence.
  - (* a fence line *)
    destruct (inCodeBlock st) eqn:Hin; simpl; (split; [done|]); (split; [done|]);
      destruct (currentSection st) as [cs|]; simpl; try done;
      destruct Hcur as (body & blocks & Hbody & Hblocks & Hstate);
      rewrite Hin in Hstate.
    + (* it closes a block *)
      exists (body ++ [line]), (blocks ++ [codeBlockContent st]).
      split; [|split].
      * eapply SectionBody_snoc; [done|done|].
        left. by eapply OpenBody_inCode.
      * simpl. by rewrite Hblocks, fmap_app.
      * by apply OpenBody_close.
    + (* it opens a block *)
      exists (body ++ [line]), blocks. split; [|split]; [|done|].
      * eapply SectionBody_snoc; [done|done|]. right.
        destruct (isHeading line) eqn:Hh; [|done].
        apply heading_not_fence in Hh. congruence.
      * by apply ClosedBody_open.
  - destruct (inCodeBlock st) eqn:Hin.
    { (* a line of code *)
      simpl. split; [done|]. split; [done|].
      destruct (currentSection st) as [cs|]; [|done].
      destruct Hcur as (body & blocks & Hbody & Hblocks & Hstate).
      rewrite Hin in Hstate.
      exists (body ++ [line]), blocks. split; [|split]; [|done|].
      - eapply SectionBody_snoc; [done|done|].
        left. by eapply OpenBody_inCode.
      - simpl. by apply OpenBody_line. }
    destruct (startsWith line (js "# ") && negb (isHeading line)) eqn:Hmain.
    { (* the main title *)
      simpl. split; [done|]. split; [done|].
      destruct (currentSection st) as [cs|]; [|done].
      destruct Hcur as (body & blocks & Hbody & Hblocks & Hstate).
      rewrite Hin in Hstate.
      exists (body ++ [line]), blocks. split; [|split]; [|done|].
      - eapply SectionBody_snoc; [done|done|]. right.
        apply andb_true_iff in Hmain as [_ Hmain].
        by apply negb_true_iff in Hmain.
      - simpl; rewrite ?Hin. by apply ClosedBody_line. }
    destruct (isHeading line) eqn:Hheading.
    + (* a section heading *)
      destruct (heading_text line Hheading) as (text & Hline & Htitle).
      case_decide as Hoverview; simpl; (split; [done|]); [done|].
      split.
      * (* the section read so far is pushed *)
        destruct (currentSection st) as [cs|]; [|done].
        destruct Hcur as (body & blocks & Hbody & Hblocks & Hstate).
        rewrite Hin in Hstate. destruct Hstate as [Hfenced Hclosed].
        apply Forall_app. split; [done|]. constructor; [|done].
        exists done, body, line, [], blocks.
        split; [done|]. split; [by eapply SectionBody_title|]. done.
      * (* a new section starts *)
        exists [], []. split; [|split]; [|done|].
        -- exists done, line. split; [done|].
           split; [done|]. split; [eauto|].
           split; [done|apply NoHeading_nil].
        -- simpl; rewrite ?Hin. split; [by apply fenced_none|done].
    + (* any other line *)
      destruct (currentSection st) as [cs|] eqn:Hcs; simpl.
      * split; [done|]. split; [done|].
        destruct Hcur as (body & blocks & Hbody & Hblocks & Hstate).
        rewrite Hin in Hstate.
        exists (body ++ [line]), blocks. split; [|split]; [|done|].
        -- eapply SectionBody_snoc; [done|done|]. by right.
        -- simpl; rewrite ?Hin. by apply ClosedBody_line.
      * rewrite ?Hin, ?Hcs. done.
Qed.

Lemma initial_Invariant : Invariant [] initial.
Proof. by repeat split. Qed.

(** The invariant holds after any number of iterations. *)
Lemma loop_Invariant lines : Invariant lines (fold_left step lines initial).
Proof.
  induction lines as [|line lines IH] using rev_ind; [apply initial_Invariant|].
  rewrite fold_left_app. by apply step_Invariant.
Qed.

(** C10. Every section that [parseMarkdownContent] returns has a title
    other than "Overview"; the title is the trimmed text of a line of the
    input that starts with [## ] and lies outside the code blocks; and the
    section's [codeBlocks] are exactly the fenced code blocks of the lines
    between this heading and the next section heading (or the end of the
    input), each block being its lines joined by line feeds. *)
Theorem parseMarkdownContent_sections (content : jsstring) (sec : DocSection) :
  sec ∈ parseMarkdownContent content →
  title sec ≠ js "Overview" ∧
  ∃ before text body after blocks,
    split 10 content = before ++ (js "## " ++ text) :: body ++ after ∧
    inCode before = false ∧
    title sec = trim text ∧
    NoHeading body ∧
    (after = [] ∨
     inCode body = false ∧ ∃ next, head after = Some next ∧ isHeading next = true) ∧
    FencedBlocks body blocks ∧
    codeBlocks sec = join nl <$> blocks.
Proof.
  unfold parseMarkdownContent, finish.
  destruct (loop_Invariant (split 10 content)) as (_ & Hfin & Hcur).
  set (lines := split 10 content) in *.
  set (st := fold_left step lines initial) in *.
  clearbody st. clearbody lines.
  assert (sec ∈ sections st → title sec ≠ js "Overview" ∧
    ∃ before text body after blocks,
      lines = before ++ (js "## " ++ text) :: body ++ after ∧
      inCode before = false ∧ title sec = trim text ∧ NoHeading body ∧
      (after = [] ∨
       inCode body = false ∧ ∃ next, head after = Some next ∧ isHeading next = true) ∧
      FencedBlocks body blocks ∧ codeBlocks sec = join nl <$> blocks) as Hpushed.
  { intros Hsec. rewrite Forall_forall in Hfin.
    destruct (Hfin sec Hsec)
      as (read & body & next & rest & blocks & Hlines & Hbody & Hclosed
          & Hnext & Hblocks & Hcode).
    destruct Hbody as (before & heading & -> & Hb & (text & -> & Ht) & Ho & Hn).
    split; [done|].
    exists before, text, body, (next :: rest), blocks.
    split; [by rewrite Hlines, <- app_assoc|].
    do 3 (split; [done|]). split; [|done].
    right. split; [done|]. by exists next. }
  destruct (currentSection st) as [cs|]; [|done].
  case_decide as Hover; [|done].
  intros Hsec. apply elem_of_app in Hsec as [Hsec|Hsec]; [auto|].
  apply list_elem_of_singleton in Hsec as ->.
  destruct Hcur as (body & blocks & Hbody & Hblocks & Hstate).
  destruct Hbody as (before & heading & Hlines & Hb & (text & -> & Ht) & Ho & Hn).
  split; [done|].
  exists before, text, body, [], blocks. rewrite app_nil_r.
  do 4 (split; [done|]). split; [by left|]. split; [|done].
  destruct (inCodeBlock st); [by eapply OpenBody_blocks | by destruct Hstate].
Qed.

Lemma parseMarkdownContent_sections_witness :
  let sec := {| title := js "B"; content := js "y
___CODE_BLOCK_0___"; codeBlocks := [js "## not a heading"] |} in
  title sec ≠ js "Overview" ∧
  ∃ before text body after blocks,
    split 10 sample_page = before ++ (js "## " ++ text) :: body ++ after ∧
    inCode before = false ∧
    title sec = trim text ∧
    NoHeading body ∧
    (after = [] ∨
     inCode body = false ∧ ∃ next, head after = Some next ∧ isHeading next = true) ∧
    FencedBlocks body blocks ∧
    codeBlocks sec = join nl <$> blocks.
Proof.
  apply (parseMarkdownContent_sections sample_page).
  vm_compute. left.
Defined.

(** On the sample page the section A, which an Overview heading follows,
    is not among the sections returned. *)
Example parse_sample :
  parseMarkdownContent sample_page =
  [ {| title := js "B"; content := js "y
___CODE_BLOCK_0___"; codeBlocks := [js "## not a heading"] |} ].
Proof. vm_compute. reflexivity. Qed.

End ParserFacts.

(** ** The chat widget: a whole send, its controls and the health check *)
Module WidgetFacts.
Import Chatbot ChatControls.

(** When the guard lets the call through, [handleSend] is its second
    branch. *)
Lemma handleSend_runs st :
  forallb isWhiteSpace (userInput st) = false → isLoading st = false →
  bool_decide (trim (userInput st) = []) || isLoading st = false.
Proof.
  intros Hin ->. rewrite orb_false_r. apply bool_decide_eq_false.
  rewrite trim_nil. by rewrite Hin.
Qed.



(** X2. While a request is in flight a second [handleSend] does nothing,
    whatever has been put into the input in the meantime: no message is
    added and no request is sent. *)
Theorem handleSend_not_reentrant st env busy typed env' :
  pending (handleSend st env) = Some busy →
  handleSend (handleSuggestionClick typed busy) env' =
    {| pending := None; final := handleSuggestionClick typed busy; sent := [] |}.
Proof.
  unfold handleSend at 1.
  destruct (bool_decide (trim (userInput st) = []) || isLoading st); [done|].
  intros [= <-]. unfold handleSend. cbn. by rewrite orb_true_r.
Qed.

Lemma handleSend_not_reentrant_witness :
  ∃ busy,
    pending (handleSend (state_of conversation "And the cart?" false) env0)
      = Some busy ∧
    handleSend (handleSuggestionClick (js "List all entities") busy) env0 =
      {| pending := None;
         final := handleSuggestionClick (js "List all entities") busy;
         sent := [] |}.
Proof.
  eexists. split; [reflexivity|].
  apply (handleSend_not_reentrant
           (state_of conversation "And the cart?" false) env0).
  reflexivity.
Defined.

(** X3. The request to the legacy endpoint [/query] follows the one to
    [/api/chat] exactly when that one rejected or answered with a status
    that is not ok; it repeats the text and the history of the first
    request, under the key [query], and nothing else is ever sent. *)
Theorem legacy_fallback st env :
  forallb isWhiteSpace (userInput st) = false → isLoading st = false →
  ∃ history,
    sent (handleSend st env) =
      chatRequest (userInput st) history ::
      match chatResult env with
      | Responded true _ _ => []
      | _ => [legacyRequest (userInput st) history]
      end.
Proof.
  intros Hin Hload. unfold handleSend.
  rewrite (handleSend_runs st Hin Hload). cbn [sent text].
  eexists. by destruct (chatResult env) as [|[] ? ?].
Qed.

Lemma legacy_fallback_witness :
  ∃ history,
    sent (handleSend (state_of conversation "And the cart?" false) env0) =
      chatRequest (js "And the cart?") history ::
      match chatResult env0 with
      | Responded true _ _ => []
      | _ => [legacyRequest (js "And the cart?") history]
      end.
Proof.
  apply (legacy_fallback (state_of conversation "And the cart?" false) env0);
    reflexivity.
Defined.

(** The last message after a send that passed the guard. *)
Lemma handleSend_reply st env :
  forallb isWhiteSpace (userInput st) = false → isLoading st = false →
  last (messages (final (handleSend st env))) =
  Some match (match chatResult env with
              | Responded true _ data => data
              | _ => match legacyResult env with
                     | Responded true _ data => data
                     | _ => None
                     end
              end) with
       | Some d =>
           {| id := replyId env; sender := bot; text := response d;
              time := replyTime env; sources := Some (response_sources d);
              metadata := Some (response_metadata d);
              isError := None; isStreaming := None |}
       | None =>
           {| id := replyId env; sender := bot; text := errorText;
              time := replyTime env; sources := None; metadata := None;
              isError := Some true; isStreaming := None |}
       end.
Proof.
  intros Hin Hload. unfold handleSend.
  rewrite (handleSend_runs st Hin Hload). cbn [final messages].
  rewrite last_snoc.
  destruct (chatResult env) as [|[] ? ?]; simpl; try done;
    by destruct (legacyResult env) as [|[] ? ?].
Qed.

(** X4. The reply is the error message exactly when no endpoint delivered
    an answer: [/api/chat] answered ok with a readable body, or it rejected
    or answered not ok and [/query] answered ok with a readable body.  In
    particular an ok answer of [/api/chat] whose body cannot be read is not
    retried on [/query]. *)
Theorem reply_is_error_iff st env :
  forallb isWhiteSpace (userInput st) = false → isLoading st = false →
  ∃ reply,
    last (messages (final (handleSend st env))) = Some reply ∧
    (isError reply = Some true ↔
     ¬ ((∃ status d, chatResult env = Responded true status (Some d)) ∨
        ((chatResult env = Rejected ∨
          ∃ status data, chatResult env = Responded false status data) ∧
         ∃ status d, legacyResult env = Responded true status (Some d)))) ∧
    (isError reply = Some true →
     text reply = errorText ∧ sources reply = None ∧ metadata reply = None) ∧
    (∀ status, chatResult env = Responded true status None →
       isError reply = Some true ∧ length (sent (handleSend st env)) = 1).
Proof.
  intros Hin Hload. eexists. split; [by apply handleSend_reply|].
  destruct (legacy_fallback st env Hin Hload) as [history ->].
  destruct (chatResult env) as [|[] status [d|]];
    destruct (legacyResult env) as [|[] status' [d'|]]; cbn;
    split_and!; try done; try (by intros ? [=]);
    (split;
      [ try done;
        intros _ [(? & ? & ?)|[[?|(? & ? & ?)] (? & ? & ?)]]; simplify_eq
      | intros Hnone; try done; exfalso; apply Hnone; eauto 10 ]).
Qed.

Lemma reply_is_error_iff_witness :
  ∃ reply,
    last (messages (final (handleSend (state_of conversation "And the cart?" false) env0)))
      = Some reply ∧
    (isError reply = Some true ↔
     ¬ ((∃ status d, chatResult env0 = Responded true status (Some d)) ∨
        ((chatResult env0 = Rejected ∨
          ∃ status data, chatResult env0 = Responded false status data) ∧
         ∃ status d, legacyResult env0 = Responded true status (Some d)))) ∧
    (isError reply = Some true →
     text reply = errorText ∧ sources reply = None ∧ metadata reply = None) ∧
    (∀ status, chatResult env0 = Responded true status None →
       isError reply = Some true ∧
       length (sent (handleSend (state_of conversation "And the cart?" false) env0)) = 1).
Proof.
  apply (reply_is_error_iff (state_of conversation "And the cart?" false) env0);
    reflexivity.
Defined.

(** The history of the first request. *)
Lemma handleSend_history st env :
  forallb isWhiteSpace (userInput st) = false → isLoading st = false →
  ∃ rest,
    sent (handleSend st env) =
      chatRequest (userInput st)
        (take (length (getChatHistory (messages st)) - 1)
              (getChatHistory (messages st))) :: rest.
Proof.
  intros Hin Hload. unfold handleSend.
  rewrite (handleSend_runs st Hin Hload). cbn [sent text].
  rewrite slice_0_m1. eauto.
Qed.

(** X5. The history that is sent lacks the last turn of the conversation so
    far: [getChatHistory] still reads the messages of the render in which
    [handleSend] was created, which do not hold the message just entered, and
    [slice(0, -1)] then removes the turn before it, in a running conversation
    the assistant's latest answer. *)
Theorem history_omits_last_turn st env earlier latest :
  forallb isWhiteSpace (userInput st) = false → isLoading st = false →
  getChatHistory (messages st) = earlier ++ [latest] →
  ∃ rest, sent (handleSend st env) = chatRequest (userInput st) earlier :: rest.
Proof.
  intros Hin Hload Hhist.
  destruct (handleSend_history st env Hin Hload) as [rest ->].
  exists rest. rewrite Hhist, length_app. simpl.
  replace (length earlier + 1 - 1) with (length earlier) by lia.
  by rewrite take_app_length.
Qed.

Lemma history_omits_last_turn_witness :
  ∃ rest,
    sent (handleSend (state_of conversation "And the cart?" false) env0) =
      chatRequest (js "And the cart?")
        [ {| role := js "user"; content := js "What is IPN?" |} ] :: rest.
Proof.
  apply (history_omits_last_turn (state_of conversation "And the cart?" false)
           env0 _ {| role := js "assistant"; content := js "A pet food company." |});
    reflexivity.
Defined.

(** X6. After [clearChat] the conversation is the single welcome message
    (from the bot, with the text of the cleared chat and the current time),
    so [getChatHistory] is empty and the next request carries an empty
    [chat_history]; the input, the flags, the panel and the connection
    status are left as they were. *)
Theorem clearChat_resets_history now st env :
  forallb isWhiteSpace (userInput st) = false → isLoading st = false →
  (∃ welcome,
     messages (clearChat now st) = [welcome] ∧
     id welcome = js "welcome" ∧ sender welcome = bot ∧
     text welcome = js "Chat cleared! How can I help you today?" ∧
     time welcome = now ∧
     sources welcome = None ∧ metadata welcome = None ∧
     isError welcome = None) ∧
  getChatHistory (messages (clearChat now st)) = [] ∧
  userInput (clearChat now st) = userInput st ∧
  isLoading (clearChat now st) = isLoading st ∧
  isTyping (clearChat now st) = isTyping st ∧
  isOpen (clearChat now st) = isOpen st ∧
  connectionStatus (clearChat now st) = connectionStatus st ∧
  ∃ rest,
    sent (handleSend (clearChat now st) env) =
      chatRequest (userInput st) [] :: rest.
Proof.
  intros Hin Hload.
  split; [eexists; split; [reflexivity|]; by split_and!|].
  do 6 (split; [done|]).
  by destruct (handleSend_history (clearChat now st) env Hin Hload) as [rest ->];
    exists rest.
Qed.

Lemma clearChat_resets_history_witness :
  (∃ welcome,
     messages (clearChat (js "10:05") (state_of conversation "And the cart?" false))
       = [welcome] ∧
     id welcome = js "welcome" ∧ sender welcome = bot ∧
     text welcome = js "Chat cleared! How can I help you today?" ∧
     time welcome = js "10:05" ∧
     sources welcome = None ∧ metadata welcome = None ∧
     isError welcome = None) ∧
  getChatHistory
    (messages (clearChat (js "10:05") (state_of conversation "And the cart?" false)))
    = [] ∧
  userInput (clearChat (js "10:05") (state_of conversation "And the cart?" false))
    = js "And the cart?" ∧
  isLoading (clearChat (js "10:05") (state_of conversation "And the cart?" false))
    = false ∧
  isTyping (clearChat (js "10:05") (state_of conversation "And the cart?" false))
    = false ∧
  isOpen (clearChat (js "10:05") (state_of conversation "And the cart?" false))
    = isOpen (state_of conversation "And the cart?" false) ∧
  connectionStatus
    (clearChat (js "10:05") (state_of conversation "And the cart?" false))
    = connectionStatus (state_of conversation "And the cart?" false) ∧
  ∃ rest,
    sent (handleSend
            (clearChat (js "10:05") (state_of conversation "And the cart?" false))
            env0) =
      chatRequest (js "And the cart?") [] :: rest.
Proof.
  apply (clearChat_resets_history (js "10:05")
           (state_of conversation "And the cart?" false) env0); reflexivity.
Defined.

(** X7. The send button is disabled exactly in the states in which
    [handleSend] would send nothing. *)
Theorem send_button_matches_guard st env :
  sendDisabled st = true ↔ sent (handleSend st env) = [].
Proof.
  unfold sendDisabled, handleSend.
  destruct (bool_decide (trim (userInput st) = []) || isLoading st); simpl.
  - done.
  - split; discriminate.
Qed.

(** X8. Every quick suggestion is a sendable text: after a click on it, a
    send (with no request in flight) asks [/api/chat] for exactly that
    suggestion, whatever the input held before. *)
Theorem suggestion_then_send suggestion st env :
  suggestion ∈ suggestions → isLoading st = false →
  ∃ history rest,
    sent (handleSend (handleSuggestionClick suggestion st) env) =
      chatRequest suggestion history :: rest.
Proof.
  intros Hs Hload.
  assert (forallb isWhiteSpace suggestion = false) as Hin.
  { unfold suggestions in Hs. repeat (apply elem_of_cons in Hs as [->|Hs]; [done|]).
    by apply elem_of_nil in Hs. }
  destruct (handleSend_history (handleSuggestionClick suggestion st) env Hin Hload)
    as [rest ->]. eauto.
Qed.

Lemma suggestion_then_send_witness :
  ∃ history rest,
    sent (handleSend
            (handleSuggestionClick (js "List all entities")
               (state_of conversation "half typed" false)) env0) =
      chatRequest (js "List all entities") history :: rest.
Proof.
  apply (suggestion_then_send (js "List all entities")
           (state_of conversation "half typed" false) env0).
  - vm_compute. do 3 right. left.
  - reflexivity.
Defined.

(** X9. [checkHealth] always leaves the status online or offline: online
    exactly when [/api/health] answered ok, or it rejected and [/health]
    answered ok.  The legacy endpoint is asked only after a rejection, not
    after an answer that is not ok, and nothing but the status changes:
    the panel, the messages, the input and both flags are as before. *)
Theorem checkHealth_status health legacy st :
  connectionStatus (checkHealth health legacy st).1 ≠ checking ∧
  (connectionStatus (checkHealth health legacy st).1 = online ↔
     (∃ status data, health = Responded true status data) ∨
     (health = Rejected ∧ ∃ status data, legacy = Responded true status data)) ∧
  (js "/health" ∈ (checkHealth health legacy st).2 ↔ health = Rejected) ∧
  isOpen (checkHealth health legacy st).1 = isOpen st ∧
  messages (checkHealth health legacy st).1 = messages st ∧
  userInput (checkHealth health legacy st).1 = userInput st ∧
  isTyping (checkHealth health legacy st).1 = isTyping st ∧
  isLoading (checkHealth health legacy st).1 = isLoading st.
Proof.
  assert (js "/health" ∈ [js "/api/health"; js "/health"]) as Hin
    by (right; left).
  assert (js "/health" ∉ [js "/api/health"]) as Hout
    by (intros H; apply list_elem_of_singleton in H; discriminate).
  unfold checkHealth.
  destruct health as [|[] ? ?]; destruct legacy as [|[] ? ?];
    cbn [fst snd connectionStatus isOpen messages userInput isTyping isLoading];
    split_and!; try done;
    try (split; [done | intros [(? & ? & ?)|[? (? & ? & ?)]]; simplify_eq]);
    try (split; [eauto 10 | done]).
Qed.

(** X10. Every URL that the chat widget fetches, for a send or for the
    health check, falls under a key of the development proxy, while the
    documentation data does not. *)
Theorem requests_are_proxied st env health legacy :
  Forall (λ r, proxied (url r) = true) (sent (handleSend st env)) ∧
  Forall (λ u, proxied u = true) (checkHealth health legacy st).2 ∧
  proxied (js "/data/documentation.json") = false.
Proof.
  split; [|split; [|reflexivity]].
  - unfold handleSend. case_match; cbn; [constructor|].
    by repeat case_match; repeat constructor.
  - by destruct health as [|[] ? ?]; destruct legacy as [|[] ? ?];
      repeat constructor.
Qed.

(** X11. The colour and the icon of a quality score always show the same
    band: green with the check mark, amber with the tilde, red with the
    exclamation mark. *)
Theorem score_colour_matches_icon (score : number) :
  (getScoreColor score = js "#22c55e" ↔ getScoreIcon score = [10003%N]) ∧
  (getScoreColor score = js "#f59e0b" ↔ getScoreIcon score = js "~") ∧
  (getScoreColor score = js "#ef4444" ↔ getScoreIcon score = js "!").
Proof.
  unfold getScoreColor, getScoreIcon.
  repeat case_decide; repeat split; done || discriminate.
Qed.

(** X12. A higher score never shows a worse band: green stays green for
    every score above, red stays red for every score below. *)
Theorem score_band_monotone (low high : number) :
  (low ≤ high)%Qc →
  (getScoreColor low = js "#22c55e" → getScoreColor high = js "#22c55e") ∧
  (getScoreColor high = js "#ef4444" → getScoreColor low = js "#ef4444").
Proof.
  intros Hle. unfold getScoreColor.
  repeat case_decide; split; try done; try discriminate;
    intros _; exfalso;
    match goal with H : ¬ (_ ≤ _)%Qc |- _ => apply H; by etrans end.
Qed.

Lemma score_band_monotone_witness :
  (getScoreColor (Q2Qc (81 # 100)) = js "#22c55e" →
   getScoreColor (Q2Qc (9 # 10)) = js "#22c55e") ∧
  (getScoreColor (Q2Qc (9 # 10)) = js "#ef4444" →
   getScoreColor (Q2Qc (81 # 100)) = js "#ef4444").
Proof.
  apply (score_band_monotone (Q2Qc (81 # 100)) (Q2Qc (9 # 10))).
  vm_compute. discriminate.
Defined.

End WidgetFacts.

(** ** The earlier chat widget *)
Module LegacyFacts.
Import LegacyChatbot.



(** X14. The earlier widget never reads the status of the response: any
    response whose body can be read is shown as the answer, and the error
    text appears only when the fetch rejects or the body cannot be read. *)
Theorem legacy_reply st env :
  forallb isWhiteSpace (userInput st) = false →
  ∃ reply,
    last (messages (final (handleSend st env))) = Some reply ∧
    (∀ status answer,
       queryResult env = Responded status (Some answer) → text reply = answer) ∧
    (text reply = js "Sorry, I encountered an error. Please try again." ∨
     ∃ status, queryResult env = Responded status (Some (text reply))).
Proof.
  intros Hin. unfold handleSend.
  rewrite bool_decide_eq_false_2 by (rewrite trim_nil; by rewrite Hin).
  cbn [final messages]. rewrite last_snoc. eexists. split; [done|].
  destruct (queryResult env) as [|status [answer|]]; cbn; split; eauto;
    by intros ? ? [=].
Qed.

Lemma legacy_reply_witness :
  ∃ reply,
    last (messages (final (handleSend
            {| isOpen := true; messages := []; userInput := js "hello";
               isTyping := false |}
            {| userTime := js "10:01";
               queryResult := Responded 500 (Some (js "Internal error"));
               replyTime := js "10:02" |}))) = Some reply ∧
    (∀ status answer,
       Responded 500 (Some (js "Internal error")) = Responded status (Some answer) →
       text reply = answer) ∧
    (text reply = js "Sorry, I encountered an error. Please try again." ∨
     ∃ status,
       Responded 500 (Some (js "Internal error"))
       = Responded status (Some (text reply))).
Proof.
  apply (legacy_reply
           {| isOpen := true; messages := []; userInput := js "hello";
              isTyping := false |}
           {| userTime := js "10:01";
              queryResult := Responded 500 (Some (js "Internal error"));
              replyTime := js "10:02" |}).
  reflexivity.
Defined.

End LegacyFacts.

(** ** The documentation explorer: the sidebar *)
Module SidebarFacts.
Import Documentation DocumentationTree.

Lemma filter_comm {A} (P Q : A → Prop)
    `{!∀ x, Decision (P x), !∀ x, Decision (Q x)} (l : list A) :
  filter P (filter Q l) = filter Q (filter P l).
Proof. rewrite !list_filter_filter. apply list_filter_iff. tauto. Qed.

Lemma filter_congr {A} (P Q : A → Prop)
    `{!∀ x, Decision (P x), !∀ x, Decision (Q x)} (l k : list A) :
  (∀ x, P x ↔ Q x) → l = k → filter P l = filter Q k.
Proof. intros HPQ ->. by apply list_filter_iff. Qed.

Lemma slice_0 {A} (n : nat) (xs : list A) :
  slice 0 (Z.of_nat n) xs = take n xs.
Proof.
  unfold slice, relIndex. cbn [Z.to_nat Nat.min Nat.sub].
  rewrite bool_decide_eq_false_2 by lia.
  rewrite Nat2Z.id, Nat.sub_0_r, drop_0.
  destruct (decide (n ≤ length xs)) as [Hle|Hgt].
  - by rewrite Nat.min_l.
  - rewrite Nat.min_r by lia. rewrite (take_ge xs n) by lia.
    by apply take_ge.
Qed.

Section Filter.

Variable toLowerCase : jsstring → jsstring.

(** What [filteredFiles] is, as two filters. *)
Lemma filteredFiles_filters docsData searchQuery categoryFilter :
  filteredFiles toLowerCase (Some docsData) searchQuery categoryFilter =
  filter (λ f, trim searchQuery = []
               ∨ matchesQuery toLowerCase (toLowerCase searchQuery) f = true)
    (filter (λ f, filter_str categoryFilter = js "all"
                  ∨ category f = filter_str categoryFilter)
       (files docsData)).
Proof.
  unfold filteredFiles. case_decide as Hcat; case_bool_decide as Hq.
  - apply filter_congr; [tauto|]. apply list_filter_iff. tauto.
  - rewrite (RetrievalFacts.filter_all (λ f, trim searchQuery = [] ∨ _))
      by (apply Forall_forall; auto).
    apply list_filter_iff. tauto.
  - apply filter_congr; [tauto|].
    symmetry. apply RetrievalFacts.filter_all, Forall_forall. auto.
  - rewrite !RetrievalFacts.filter_all; try done; apply Forall_forall; auto.
Qed.

(** X15. Narrowing: the files found for a category are a subsequence of
    those found for 'all' with the same query, and of those found for the
    same category with no query; filtering the result again changes
    nothing; and with no data loaded the result is empty. *)
Theorem filteredFiles_narrows (docsData : DocumentationData)
    (searchQuery : jsstring) (categoryFilter : CategoryFilter) :
  filteredFiles toLowerCase (Some docsData) searchQuery categoryFilter
    `sublist_of` filteredFiles toLowerCase (Some docsData) searchQuery all ∧
  filteredFiles toLowerCase (Some docsData) searchQuery categoryFilter
    `sublist_of` filteredFiles toLowerCase (Some docsData) [] categoryFilter ∧
  filteredFiles toLowerCase
    (Some {| files := filteredFiles toLowerCase (Some docsData)
                        searchQuery categoryFilter |})
    searchQuery categoryFilter
  = filteredFiles toLowerCase (Some docsData) searchQuery categoryFilter ∧
  filteredFiles toLowerCase None searchQuery categoryFilter = [].
Proof.
  rewrite !filteredFiles_filters. cbn [files]. split_and!; [| | |done].
  - assert (filter (λ f, filter_str all = js "all" ∨ category f = filter_str all)
              (files docsData) = files docsData) as ->
      by (apply RetrievalFacts.filter_all, Forall_forall; by left).
    rewrite filter_comm. apply sublist_filter.
  - set (found := filter (λ f, filter_str categoryFilter = js "all" ∨ _) _).
    assert (filter (λ f, trim [] = []
                         ∨ matchesQuery toLowerCase (toLowerCase []) f = true)
              found = found) as ->
      by (apply RetrievalFacts.filter_all, Forall_forall; by left).
    apply sublist_filter.
  - set (P := λ f, trim searchQuery = [] ∨ _).
    set (Q := λ f, filter_str categoryFilter = js "all" ∨ _).
    rewrite (filter_comm Q P), (list_filter_filter_l P P) by done.
    by rewrite (list_filter_filter_l Q Q).
Qed.

(** X16. A query of white space only filters nothing out: the result is
    the list for the empty query, that is the files of the category in their
    original order (all files for 'all'). *)
Theorem blank_query_ignored (docsData : DocumentationData)
    (searchQuery : jsstring) (categoryFilter : CategoryFilter) :
  forallb isWhiteSpace searchQuery = true →
  filteredFiles toLowerCase (Some docsData) searchQuery categoryFilter
  = filteredFiles toLowerCase (Some docsData) [] categoryFilter ∧
  filteredFiles toLowerCase (Some docsData) searchQuery categoryFilter
  = filter (λ f, filter_str categoryFilter = js "all"
                 ∨ category f = filter_str categoryFilter) (files docsData).
Proof.
  intros Hblank. apply trim_nil in Hblank.
  assert (∀ query (found : list DocFile),
            trim query = [] →
            filter (λ f, trim query = []
                         ∨ matchesQuery toLowerCase (toLowerCase query) f = true)
              found = found) as Hall.
  { intros query found Hq.
    apply RetrievalFacts.filter_all, Forall_forall. by left. }
  rewrite !filteredFiles_filters. by rewrite !Hall.
Qed.

(** X17. The category tree and the search list agree: the files of a tree
    entry are the files of that section among those that [filteredFiles]
    returns for the empty query and the same category filter. *)
Theorem tree_matches_filter (docsData : DocumentationData)
    (categoryFilter : CategoryFilter) (categoryName : jsstring) :
  visibleFiles docsData categoryFilter categoryName =
  filter (λ f, section f = categoryName)
    (filteredFiles toLowerCase (Some docsData) [] categoryFilter).
Proof.
  unfold visibleFiles, categoryFiles, filteredFiles. cbn.
  case_decide as Hall.
  - by rewrite decide_False by tauto.
  - rewrite decide_True by done. apply filter_comm.
Qed.

End Filter.

Lemma blank_query_ignored_witness :
  filteredFiles asciiLower (Some library) (js "   ") backend
  = filteredFiles asciiLower (Some library) [] backend ∧
  filteredFiles asciiLower (Some library) (js "   ") backend
  = filter (λ f, filter_str backend = js "all"
                 ∨ category f = filter_str backend) (files library).
Proof.
  apply (blank_query_ignored asciiLower library (js "   ") backend).
  reflexivity.
Defined.

(** X18. A tree entry is rendered exactly when a file of the section is
    visible; its badge counts all visible files; when expanded it lists the
    first fifty in order, and the files listed and the number announced as
    "more" add up to the badge. *)
Theorem treeEntry_accounts (docsData : DocumentationData)
    (categoryFilter : CategoryFilter) (expandedSections : gmap jsstring bool)
    (categoryName : jsstring) :
  match treeEntry docsData categoryFilter expandedSections categoryName with
  | None => visibleFiles docsData categoryFilter categoryName = []
  | Some entry =>
      badge entry = length (visibleFiles docsData categoryFilter categoryName) ∧
      0 < badge entry ∧
      match listed entry with
      | Some shown =>
          isExpanded expandedSections categoryName = true ∧
          shown = take 50 (visibleFiles docsData categoryFilter categoryName) ∧
          length shown ≤ 50 ∧
          length shown + default 0 (more entry) = badge entry
      | None =>
          isExpanded expandedSections categoryName = false ∧ more entry = None
      end
  end.
Proof.
  unfold treeEntry.
  set (visible := visibleFiles docsData categoryFilter categoryName).
  case_decide as Hempty; [by apply length_zero_iff_nil|].
  clearbody visible.
  destruct (isExpanded expandedSections categoryName); cbn [badge listed more].
  - rewrite (slice_0 50), length_take.
    split_and!; try done; try lia.
    case_decide; [rewrite Nat.min_l by lia | rewrite Nat.min_r by lia];
      cbn [from_option Datatypes.id]; lia.
  - split_and!; try done; lia.
Qed.

(** X19. Toggling a section inverts what is read for it, toggling twice
    restores it, and no other section is affected. *)
Theorem toggleSection_flips (section other : jsstring)
    (expandedSections : gmap jsstring bool) :
  other ≠ section →
  isExpanded (toggleSection section expandedSections) section
    = negb (isExpanded expandedSections section) ∧
  isExpanded (toggleSection section (toggleSection section expandedSections)) section
    = isExpanded expandedSections section ∧
  isExpanded (toggleSection section expandedSections) other
    = isExpanded expandedSections other.
Proof.
  intros Hother.
  assert (∀ m : gmap jsstring bool,
            isExpanded (toggleSection section m) section
            = negb (isExpanded m section)) as Hflip.
  { intros m. unfold toggleSection, isExpanded at 1.
    by rewrite lookup_insert_eq. }
  split; [apply Hflip|]. split; [by rewrite !Hflip, negb_involutive|].
  unfold toggleSection, isExpanded. by rewrite lookup_insert_ne.
Qed.

Lemma toggleSection_flips_witness :
  isExpanded (toggleSection (js "Controller") ∅) (js "Controller")
    = negb (isExpanded ∅ (js "Controller")) ∧
  isExpanded (toggleSection (js "Controller") (toggleSection (js "Controller") ∅))
      (js "Controller")
    = isExpanded ∅ (js "Controller") ∧
  isExpanded (toggleSection (js "Controller") ∅) (js "Entity")
    = isExpanded ∅ (js "Entity").
Proof.
  apply (toggleSection_flips (js "Controller") (js "Entity") ∅).
  discriminate.
Defined.

(** A section that was never toggled is collapsed, unless it is named like
    a property of [Object.prototype]. *)
Example untouched_sections :
  isExpanded ∅ (js "Controller") = false ∧ isExpanded ∅ (js "constructor") = true.
Proof. split; reflexivity. Qed.

End SidebarFacts.

(** ** The markdown parser: which headings become sections *)
Module OutlineFacts.
Import Documentation ParserOutline ParserFacts.

#[local] Arguments js : simpl never.

Lemma headingTitles_app open lines1 lines2 :
  headingTitles open (lines1 ++ lines2) =
  headingTitles open lines1 ++ headingTitles (xorb open (inCode lines1)) lines2.
Proof.
  revert open. induction lines1 as [|line lines1 IH]; intros open; simpl.
  - by rewrite xorb_false_r.
  - destruct (isFence line) eqn:Hfence; simpl.
    + rewrite IH. by destruct open, (inCode lines1).
    + destruct open; [apply IH|].
      destruct (isHeading line); rewrite IH; done.
Qed.

(** Reading one more line adds at most one title. *)
Lemma headingTitles_snoc lines line :
  headingTitles false (lines ++ [line]) =
  headingTitles false lines ++
  (if isFence line then []
   else if inCode lines then []
   else if isHeading line then [trim (drop 3 line)] else []).
Proof.
  rewrite headingTitles_app. by f_equal.
Qed.

(** Whether a title survives is settled by the title after it. *)
Lemma survivors_cons title rest :
  survivors (title :: rest) =
  (if decide (title ≠ js "Overview" ∧ head rest ≠ Some (js "Overview"))
   then [title] else [])
  ++ survivors rest.
Proof. done. Qed.

Lemma head_snoc_keep (titles : list jsstring) (title : jsstring) :
  title ≠ js "Overview" →
  head (titles ++ [title]) ≠ Some (js "Overview")
  ↔ head titles ≠ Some (js "Overview").
Proof. intros Htitle. destruct titles; simpl; [|done]. split; congruence. Qed.

Lemma survivors_snoc_keep titles title :
  title ≠ js "Overview" →
  survivors (titles ++ [title]) = survivors titles ++ [title].
Proof.
  intros Htitle. induction titles as [|t titles IH].
  - cbn. by rewrite decide_True.
  - rewrite <- app_comm_cons, !survivors_cons, IH, <- app_assoc. f_equal.
    apply decide_ext. by rewrite head_snoc_keep.
Qed.

Lemma survivors_snoc_overview titles :
  last titles = None ∨ last titles = Some (js "Overview") →
  survivors (titles ++ [js "Overview"]) = survivors titles.
Proof.
  induction titles as [|t titles IH]; intros Hlast.
  - cbn. by rewrite decide_False by (intros [? _]; done).
  - rewrite <- app_comm_cons, !survivors_cons. destruct titles as [|t' titles].
    + destruct Hlast as [[=]|[= ->]]. cbn.
      by rewrite !decide_False by (intros [? _]; done).
    + rewrite IH; [done|]. by rewrite last_cons_cons in Hlast.
Qed.

(** An "Overview" heading removes the title before it, if that one had
    survived so far. *)
Lemma survivors_snoc_drop titles title :
  title ≠ js "Overview" →
  survivors ((titles ++ [title]) ++ [js "Overview"]) ++ [title]
  = survivors (titles ++ [title]).
Proof.
  intros Htitle. induction titles as [|t titles IH].
  - cbn. rewrite decide_False by (intros [_ ?]; done).
    rewrite decide_False by (intros [? _]; done). by rewrite decide_True.
  - rewrite <- !app_comm_cons, !survivors_cons, <- app_assoc, IH. f_equal.
    apply decide_ext. by destruct titles.
Qed.

Lemma heading_title line :
  isHeading line = true →
  trim (replace line (js "## ") []) = trim (drop 3 line).
Proof.
  intros H. apply startsWith_prefix in H as [text ->].
  by rewrite replace_prefix.
Qed.

Lemma outline_step done st line :
  OutlineInvariant done st → OutlineInvariant (done ++ [line]) (step st line).
Proof.
  intros (Hcode & Htitles & Hcur).
  assert (inCode (done ++ [line]) = xorb (inCode done) (isFence line)) as Hdone.
  { rewrite inCode_app. simpl. by rewrite xorb_false_r. }
  unfold OutlineInvariant. rewrite headingTitles_snoc, Hdone, <- Hcode.
  unfold step. fold (isFence line). fold (isHeading line).
  destruct (isFence line) eqn:Hfence.
  { (* a fence line: no title, the sections keep their titles *)
    rewrite app_nil_r.
    destruct (inCodeBlock st); cbn; (split; [done|]);
      destruct (currentSection st) as [cs|]; cbn in *;
      rewrite ?fmap_app in *; done. }
  destruct (inCodeBlock st) eqn:Hin.
  { rewrite app_nil_r. cbn. split; [done|]. by rewrite ?Hin. }
  destruct (startsWith line (js "# ") && negb (isHeading line)) eqn:Hmain.
  { apply andb_true_iff in Hmain as [_ Hmain].
    apply negb_true_iff in Hmain. rewrite Hmain, app_nil_r. cbn.
    split; [done|]. by rewrite ?Hin. }
  destruct (isHeading line) eqn:Hheading.
  - rewrite (heading_title line Hheading).
    set (new := trim (drop 3 line)).
    case_decide as Hover; cbn; (split; [done|]).
    + (* an Overview heading *)
      rewrite Hover, app_nil_r, last_snoc. split; [|by right].
      destruct (currentSection st) as [cs|]; cbn in Htitles.
      * destruct Hcur as [Hcs Hlast]. apply last_Some in Hlast as [titles Hlast].
        rewrite Hlast in Htitles |- *.
        rewrite <- (survivors_snoc_drop titles (title cs) Hcs) in Htitles.
        rewrite fmap_app in Htitles. by apply app_inj_tail in Htitles as [? _].
      * rewrite app_nil_r in Htitles.
        by rewrite survivors_snoc_overview.
    + (* a heading that opens a section *)
      rewrite last_snoc, survivors_snoc_keep by done. split; [|done].
      rewrite <- Htitles. destruct (currentSection st) as [cs|]; cbn.
      * by rewrite !fmap_app.
      * by rewrite app_nil_r, fmap_app.
  - rewrite app_nil_r.
    destruct (currentSection st) as [cs|] eqn:Hcs; cbn.
    + split; [done|]. by rewrite ?Hcs.
    + split; [done|]. by rewrite ?Hin, ?Hcs.
Qed.

Lemma outline_loop lines :
  OutlineInvariant lines (fold_left step lines initial).
Proof.
  induction lines as [|line lines IH] using rev_ind.
  - split; [done|]. split; [done|]. by left.
  - rewrite fold_left_app. by apply outline_step.
Qed.

(** X20. Which sections are returned: in the order of the input, one for
    every section heading outside the code blocks whose title is not
    "Overview" and whose next section heading is not an "Overview" heading.
    A section directly followed by an "Overview" heading is lost. *)
Theorem section_titles (content : jsstring) :
  title <$> parseMarkdownContent content =
  survivors (headingTitles false (split 10 content)).
Proof.
  unfold parseMarkdownContent, finish.
  destruct (outline_loop (split 10 content)) as (_ & <- & Hcur).
  destruct (currentSection _) as [cs|]; cbn.
  - destruct Hcur as [Hcs _]. by rewrite decide_True, !fmap_app.
  - by rewrite app_nil_r.
Qed.

(** *** Titles and contents are trimmed *)

Lemma trimStart_fixed (s : jsstring) :
  (∀ c, head s = Some c → isWhiteSpace c = false) → trimStart s = s.
Proof.
  destruct s as [|c s]; [done|]. intros H. simpl. by rewrite (H c).
Qed.

Lemma trimEnd_last (s : jsstring) c :
  last (trimEnd s) = Some c → isWhiteSpace c = false.
Proof.
  unfold trimEnd. rewrite last_reverse.
  destruct (trimStart (reverse s)) as [|d r] eqn:E; [done|].
  intros [= <-]. by eapply trimStart_head.
Qed.

(** [trimEnd] only removes from the end. *)
Lemma trimEnd_prefix (s : jsstring) : trimEnd s `prefix_of` s.
Proof.
  unfold trimEnd.
  assert (∀ t : jsstring, trimStart t `suffix_of` t) as Hsuffix.
  { induction t as [|c t IH]; simpl; [done|].
    destruct (isWhiteSpace c); [by apply suffix_cons_r | done]. }
  destruct (Hsuffix (reverse s)) as [k Hk].
  exists (reverse k). apply (inj reverse).
  by rewrite reverse_app, !reverse_involutive.
Qed.

(** What [trim] returns neither starts nor ends with white space. *)
Lemma trim_ends (s : jsstring) c :
  head (trim s) = Some c ∨ last (trim s) = Some c → isWhiteSpace c = false.
Proof.
  unfold trim. intros [Hhead|Hlast]; [|by eapply trimEnd_last].
  destruct (trimEnd_prefix (trimStart s)) as [k Hk].
  destruct (trimEnd (trimStart s)) as [|d r]; [done|].
  injection Hhead as ->. by eapply trimStart_head.
Qed.

Lemma trim_fixed (s : jsstring) :
  (∀ c, head s = Some c ∨ last s = Some c → isWhiteSpace c = false) →
  trim s = s.
Proof.
  intros H. unfold trim. rewrite trimStart_fixed by auto.
  unfold trimEnd. rewrite trimStart_fixed, reverse_involutive; [done|].
  intros c Hc. rewrite head_reverse in Hc. auto.
Qed.

Lemma trim_idemp (s : jsstring) : trim (trim s) = trim s.
Proof. apply trim_fixed. intros c. apply trim_ends. Qed.

Lemma trimmed_step st line :
  Forall Trimmed (sections st) ∧
  (∀ cs, currentSection st = Some cs → trim (title cs) = title cs) →
  Forall Trimmed (sections (step st line)) ∧
  (∀ cs, currentSection (step st line) = Some cs → trim (title cs) = title cs).
Proof.
  intros [Hsections Hcurrent]. unfold step.
  destruct (startsWith (trim line) _).
  { destruct (negb (inCodeBlock st)); cbn; (split; [done|]); [done|].
    destruct (currentSection st) as [cs|] eqn:Hcs; cbn; [|done].
    intros ? [= <-]. exact (Hcurrent cs eq_refl). }
  destruct (inCodeBlock st); [by split|].
  destruct (_ && _); [by split|].
  destruct (startsWith line (js "## ")).
  - case_decide; cbn; [by split|]. split.
    + destruct (currentSection st) as [cs|] eqn:Hcs; [|done].
      rewrite Forall_app. split; [done|]. constructor; [|done].
      split; [exact (Hcurrent cs eq_refl) | apply trim_idemp].
    + intros ? [= <-]. apply trim_idemp.
  - destruct (currentSection st) as [cs|] eqn:Hcs; cbn.
    + split; [done|]. intros ? [= <-]. exact (Hcurrent cs eq_refl).
    + split; [done|]. by rewrite Hcs.
Qed.

(** X21. Every returned section has a trimmed title and a trimmed content:
    both are unchanged by [trim], so neither starts nor ends with white
    space. *)
Theorem sections_trimmed (content : jsstring) (sec : DocSection) :
  sec ∈ parseMarkdownContent content →
  Trimmed sec ∧
  ∀ c, head (title sec) = Some c ∨ last (title sec) = Some c
       ∨ head (Documentation.content sec) = Some c
       ∨ last (Documentation.content sec) = Some c →
       isWhiteSpace c = false.
Proof.
  intros Hsec.
  assert (Trimmed sec) as [Htitle Hcontent].
  { revert Hsec. unfold parseMarkdownContent, finish.
    assert (∀ lines,
              Forall Trimmed (sections (fold_left step lines initial)) ∧
              (∀ cs, currentSection (fold_left step lines initial) = Some cs →
                     trim (title cs) = title cs)) as Hloop.
    { induction lines as [|line lines IH] using rev_ind; [by split|].
      rewrite fold_left_app. by apply trimmed_step. }
    destruct (Hloop (split 10 content)) as [Hsections Hcurrent].
    rewrite Forall_forall in Hsections.
    destruct (currentSection _) as [cs|]; [|by auto].
    case_decide; [|by auto]. intros Hsec.
    apply elem_of_app in Hsec as [Hsec|Hsec]; [by auto|].
    apply list_elem_of_singleton in Hsec as ->.
    split; [exact (Hcurrent cs eq_refl) | apply trim_idemp]. }
  split; [done|]. intros c.
  rewrite <- Htitle, <- Hcontent. intros [H|[H|[H|H]]]; eapply trim_ends; eauto.
Qed.

Lemma sections_trimmed_witness :
  let sec := {| title := js "B"; content := js "y
___CODE_BLOCK_0___"; codeBlocks := [js "## not a heading"] |} in
  Trimmed sec ∧
  ∀ c, head (title sec) = Some c ∨ last (title sec) = Some c
       ∨ head (Documentation.content sec) = Some c
       ∨ last (Documentation.content sec) = Some c →
       isWhiteSpace c = false.
Proof.
  apply (sections_trimmed sample_page).
  vm_compute. left.
Defined.

(** *** The main title *)

Lemma split_no_sep (sep : N) (s : jsstring) : sep ∉ s → split sep s = [s].
Proof.
  induction s as [|c s IH]; intros Hs; [done|].
  apply not_elem_of_cons in Hs as [Hc Hs]. simpl.
  rewrite bool_decide_eq_false_2 by congruence. by rewrite IH.
Qed.

Lemma split_app (sep : N) (s rest : jsstring) :
  sep ∉ s → split sep (s ++ sep :: rest) = s :: split sep rest.
Proof.
  induction s as [|c s IH]; intros Hs; simpl.
  - by rewrite bool_decide_eq_true_2.
  - apply not_elem_of_cons in Hs as [Hc Hs].
    rewrite bool_decide_eq_false_2 by congruence. by rewrite IH.
Qed.

(** Splitting what was joined gives the lines back. *)
Lemma split_join (lines : list jsstring) :
  lines ≠ [] → Forall (λ l, 10%N ∉ l) lines →
  split 10 (join nl lines) = lines.
Proof.
  intros Hne Hlines. induction Hlines as [|l [|l' lines] Hl Hlines IH]; [done|..].
  - by apply split_no_sep.
  - change (join nl (l :: l' :: lines)) with (l ++ 10%N :: join nl (l' :: lines)).
    rewrite split_app by done. by rewrite IH.
Qed.

Lemma sameButTitle_step st1 st2 line :
  sameButTitle st1 st2 → sameButTitle (step st1 line) (step st2 line).
Proof.
  intros (Hs & Hc & Hcc & Hi & Hcb). unfold step.
  rewrite Hs, Hc, Hcc, Hi, Hcb.
  destruct st1 as [s1 c1 cc1 i1 cb1 m1], st2 as [s2 c2 cc2 i2 cb2 m2].
  cbn in *. subst. by repeat case_match.
Qed.

Lemma sameButTitle_loop lines st1 st2 :
  sameButTitle st1 st2 →
  sameButTitle (fold_left step lines st1) (fold_left step lines st2).
Proof.
  revert st1 st2. induction lines as [|line lines IH]; intros st1 st2 H; [done|].
  apply IH. by apply sameButTitle_step.
Qed.

Lemma sameButTitle_finish st1 st2 :
  sameButTitle st1 st2 → finish st1 = finish st2.
Proof. intros (Hs & Hc & Hcc & _). unfold finish. by rewrite Hs, Hc, Hcc. Qed.

(** A main-title line outside a code block changes [mainTitle] only. *)
Lemma title_line_step st line :
  inCodeBlock st = false → startsWith line (js "# ") = true →
  sameButTitle (step st line) st.
Proof.
  intros Hin Htitle. unfold step.
  assert (∃ text, line = js "# " ++ text) as [text ->]
    by by apply startsWith_prefix.
  destruct (trim_head 35 (32%N :: text)) as [r Hr]; [done|].
  change (js "# " ++ text) with (35%N :: 32%N :: text).
  rewrite Hr, Hin. by cbn.
Qed.

(** X22. The main title never reaches the output: a line that starts with
    [# ] and lies outside the code blocks can be deleted from the input
    without any change to the sections returned, wherever it stands. *)
Theorem main_title_ignored (before after : list jsstring) (titleLine : jsstring) :
  Forall (λ l, 10%N ∉ l) (before ++ titleLine :: after) →
  inCode before = false →
  startsWith titleLine (js "# ") = true →
  parseMarkdownContent (join nl (before ++ titleLine :: after)) =
  parseMarkdownContent (join nl (before ++ after)).
Proof.
  intros Hlines Hbefore Htitle. unfold parseMarkdownContent.
  rewrite split_join by (done || by destruct before).
  assert (sameButTitle
            (fold_left step (before ++ titleLine :: after) initial)
            (fold_left step (before ++ after) initial)) as Hsame.
  { rewrite !fold_left_app. cbn [fold_left].
    apply sameButTitle_loop, title_line_step; [|done].
    destruct (loop_Invariant before) as [-> _]. done. }
  destruct (decide (before ++ after = [])) as [Hnil|Hne].
  - apply app_eq_nil in Hnil as [-> ->].
    exact (sameButTitle_finish _ _ Hsame).
  - rewrite (split_join (before ++ after)); [by apply sameButTitle_finish|done|].
    apply Forall_app in Hlines as [? Hlines].
    apply Forall_cons in Hlines as [_ ?]. by apply Forall_app.
Qed.

Lemma main_title_ignored_witness :
  parseMarkdownContent
    (join nl ([js "## A"; js "x"] ++ js "# Title" :: [js "y"])) =
  parseMarkdownContent (join nl ([js "## A"; js "x"] ++ [js "y"])).
Proof.
  apply (main_title_ignored [js "## A"; js "x"] [js "y"] (js "# Title")).
  - repeat constructor; vm_compute; intros H;
      repeat (apply elem_of_cons in H as [H|H]; [discriminate|]);
      by apply elem_of_nil in H.
  - reflexivity.
  - reflexivity.
Defined.

End OutlineFacts.

(** ** The renderer of a section *)
Module RendererFacts.
Import Documentation Renderer.


#[local] Arguments js : simpl never.








Lemma flushList_idle st : currentList st = [] → flushList st = st.
Proof. intros H. unfold flushList. by rewrite H. Qed.

(** What a line does to the elements: nothing, or it closes the list, or
    it closes the list and adds one element, numbered by the line. *)
Lemma renderLine_cases codeBlocks st idx line :
  elements (renderLine codeBlocks st idx line) = elements st ∨
  elements (renderLine codeBlocks st idx line) = elements (flushList st) ∨
  ∃ e, elements (renderLine codeBlocks st idx line)
         = elements (flushList st) ++ [e] ∧
       number e = idx ∧ kind e ≠ "list" ∧ validCode codeBlocks e.
Proof.
  unfold renderLine.
  repeat case_match; try (by left); try (by right; left);
    right; right; eexists; (split; [reflexivity|]);
    (split; [reflexivity|]); (split; [done|]); cbn; try done.
  split; [done|]. by eapply bool_decide_eq_true_1.
Qed.

Lemma flushList_elements st :
  elements (flushList st) = elements st ∨
  ∃ items, elements (flushList st)
           = elements st ++ [ListElement (length (elements st)) items].
Proof. unfold flushList. case_decide; [right; eauto | by left]. Qed.

Lemma forEach_snoc codeBlocks idx lines line st :
  forEach codeBlocks idx (lines ++ [line]) st
  = renderLine codeBlocks (forEach codeBlocks idx lines st)
      (idx + length lines) line.
Proof.
  revert idx st. induction lines as [|l lines IH]; intros idx st; simpl.
  - by rewrite Nat.add_0_r.
  - rewrite IH. f_equal. lia.
Qed.

Lemma flushList_valid codeBlocks st :
  Forall (validCode codeBlocks) (elements st) →
  Forall (validCode codeBlocks) (elements (flushList st)).
Proof.
  intros H. destruct (flushList_elements st) as [->|[items ->]]; [done|].
  apply Forall_app. split; [done|]. by repeat constructor.
Qed.

Lemma renderLine_valid codeBlocks st idx line :
  Forall (validCode codeBlocks) (elements st) →
  Forall (validCode codeBlocks) (elements (renderLine codeBlocks st idx line)).
Proof.
  intros H. pose proof (flushList_valid _ _ H) as Hflush.
  destruct (renderLine_cases codeBlocks st idx line)
    as [->|[->|(e & -> & _ & _ & He)]]; [done..|].
  apply Forall_app. split; [done|]. by repeat constructor.
Qed.

Lemma forEach_valid codeBlocks idx lines st :
  Forall (validCode codeBlocks) (elements st) →
  Forall (validCode codeBlocks) (elements (forEach codeBlocks idx lines st)).
Proof.
  revert idx st. induction lines as [|l lines IH]; intros idx st H; [done|].
  simpl. by apply IH, renderLine_valid.
Qed.



(** X24. Every code element shows a block of [codeBlocks] that exists and
    is not empty, whatever the content holds. *)
Theorem code_elements_valid content codeBlocks :
  Forall (validCode codeBlocks) (renderFormattedContent content codeBlocks).
Proof.
  unfold renderFormattedContent.
  apply flushList_valid, forEach_valid. constructor.
Qed.

Lemma white_excludes line c p :
  forallb isWhiteSpace line = true → isWhiteSpace c = false →
  includes line (c :: p) = false.
Proof.
  intros Hline Hc. destruct (includes line (c :: p)) eqn:E; [|done].
  apply includes_contains in E as (before & after & ->).
  rewrite forallb_app in Hline. simpl in Hline.
  rewrite Hc, andb_false_r in Hline. discriminate.
Qed.

Lemma renderLine_skipped codeBlocks st idx line :
  isSkipped line = true → renderLine codeBlocks st idx line = st.
Proof.
  unfold isSkipped, renderLine. intros H.
  destruct (startsWith (trim line) (js "#")) eqn:Hhash; [done|].
  simpl in H.
  change (js "___CODE_BLOCK_") with (95%N :: js "__CODE_BLOCK_").
  rewrite (white_excludes line 95 (js "__CODE_BLOCK_")) by done.
  rewrite (white_excludes line 96 []) by done.
  apply trim_nil in H. by rewrite H.
Qed.

Lemma renderLine_item codeBlocks st idx line :
  isItem line = true → collecting st →
  elements (renderLine codeBlocks st idx line) = elements st ∧
  currentList (renderLine codeBlocks st idx line)
    = currentList st ++ [drop 2 (trim line)] ∧
  collecting (renderLine codeBlocks st idx line).
Proof.
  unfold isItem, renderLine, collecting. intros H Hst.
  apply andb_true_iff in H as [H Hitem]. apply andb_true_iff in H as [Hhash Hcode].
  apply negb_true_iff in Hhash, Hcode. rewrite Hhash, Hcode, Hitem.
  destruct Hst as [Hul|Hnil].
  - rewrite Hul. cbn. auto.
  - rewrite (flushList_idle st Hnil).
    destruct (listType st) as [[]|] eqn:Htype; cbn; auto.
Qed.

Lemma forEach_items codeBlocks lines idx st :
  Forall (λ l, isItem l || isSkipped l = true) lines → collecting st →
  elements (forEach codeBlocks idx lines st) = elements st ∧
  currentList (forEach codeBlocks idx lines st)
    = currentList st
      ++ ((λ l, drop 2 (trim l)) <$> filter (λ l, isItem l = true) lines) ∧
  collecting (forEach codeBlocks idx lines st).
Proof.
  intros Hlines. revert idx st.
  induction Hlines as [|l lines Hl _ IH]; intros idx st Hst.
  { cbn. by rewrite app_nil_r. }
  cbn [forEach]. destruct (isItem l) eqn:Hitem.
  - destruct (renderLine_item codeBlocks st idx l Hitem Hst) as (He & Hc & Hcol).
    destruct (IH (S idx) _ Hcol) as (-> & -> & ?).
    rewrite filter_cons_True by done. rewrite fmap_cons, He, Hc, <- app_assoc.
    done.
  - rewrite renderLine_skipped by done.
    rewrite filter_cons_False by congruence. by apply IH.
Qed.

(** X25. When every line of the content is a bullet item, blank or a
    heading line, the renderer gives one list: blank lines and heading
    lines between the items do not split it, and its items are the item
    lines, trimmed, without their first two characters. *)
Theorem bullet_list_grouped content codeBlocks :
  Forall (λ l, isItem l || isSkipped l = true) (split 10 content) →
  renderFormattedContent content codeBlocks =
    match (λ l, drop 2 (trim l)) <$> filter (λ l, isItem l = true) (split 10 content) with
    | [] => []
    | items => [ListElement 0 items]
    end.
Proof.
  intros Hlines. unfold renderFormattedContent.
  destruct (forEach_items codeBlocks _ 0 start Hlines) as (He & Hc & _);
    [by right|].
  unfold flushList. rewrite Hc, He. cbn [currentList elements start app].
  destruct (_ <$> _) as [|item items]; [done|].
  rewrite decide_True by (cbn; lia). done.
Qed.

Lemma bullet_list_grouped_witness :
  let content := js "- a

## h
  - b" in
  Forall (λ l, isItem l || isSkipped l = true) (split 10 content) ∧
  renderFormattedContent content [] =
    match (λ l, drop 2 (trim l)) <$> filter (λ l, isItem l = true) (split 10 content) with
    | [] => []
    | items => [ListElement 0 items]
    end.
Proof.
  intros content.
  assert (Forall (λ l, isItem l || isSkipped l = true) (split 10 content)) as H.
  { replace (split 10 content) with [js "- a"; []; js "## h"; js "  - b"]
      by (vm_compute; reflexivity).
    repeat (apply Forall_cons; split; [vm_compute; reflexivity|]).
    apply Forall_nil_2. }
  split; [exact H|]. exact (bullet_list_grouped content [] H).
Defined.

Lemma N_of_ascii_inj a b : Ascii.N_of_ascii a = Ascii.N_of_ascii b → a = b.
Proof.
  intros H. rewrite <- (Ascii.ascii_N_embedding a), H.
  apply Ascii.ascii_N_embedding.
Qed.

Lemma js_inj s1 s2 : js s1 = js s2 → s1 = s2.
Proof.
  unfold js. intros H.
  assert (String.list_ascii_of_string s1 = String.list_ascii_of_string s2) as H'.
  { revert H. generalize (String.list_ascii_of_string s1)
                         (String.list_ascii_of_string s2).
    induction l as [|a l IH]; intros [|b k]; try done.
    rewrite !fmap_cons. intros [= Ha Hl].
    f_equal; [by apply N_of_ascii_inj | by apply IH]. }
  rewrite <- (String.string_of_list_ascii_of_string s1), H'.
  apply String.string_of_list_ascii_of_string.
Qed.

Lemma app_pivot {A} (x : A) l1 r1 l2 r2 :
  x ∉ l1 → x ∉ l2 → l1 ++ x :: r1 = l2 ++ x :: r2 → l1 = l2 ∧ r1 = r2.
Proof.
  revert l2. induction l1 as [|a l1 IH]; intros [|b l2] H1 H2 H;
    simpl in H.
  - by injection H as ->.
  - injection H as -> _. destruct H2. left.
  - injection H as -> _. destruct H1. left.
  - injection H as -> H.
    apply not_elem_of_cons in H1 as [_ H1]. apply not_elem_of_cons in H2 as [_ H2].
    destruct (IH l2 H1 H2 H) as [-> ->]. done.
Qed.

(** Two elements with the same key have the same kind and number. *)
Lemma key_inj e1 e2 :
  key e1 = key e2 → kind e1 = kind e2 ∧ number e1 = number e2.
Proof.
  unfold key. change (js "-") with [45%N]. cbn [app]. intros H.
  assert (∀ e, 45%N ∉ js (kind e)) as Hdash.
  { intros []; apply (bool_decide_unpack _); vm_compute; exact I. }
  apply app_pivot in H as [Hk Hn]; [|done..].
  split; [by apply js_inj|].
  apply js_inj in Hn. by apply (inj pretty).
Qed.

Lemma keysBelow_mono idx es : keysBelow idx es → keysBelow (S idx) es.
Proof.
  intros [Hdup Hall]. split; [done|].
  eapply Forall_impl; [exact Hall|]. intros e. unfold keyBelow.
  case_decide; lia.
Qed.

Lemma keysBelow_list idx es items :
  keysBelow idx es → keysBelow idx (es ++ [ListElement (length es) items]).
Proof.
  intros [Hdup Hall]. split.
  - rewrite fmap_app. apply NoDup_app. split; [done|]. split.
    + intros k Hk Hnew. apply list_elem_of_fmap in Hk as (e & -> & He).
      apply list_elem_of_singleton in Hnew. apply key_inj in Hnew as [Hkind Hnum].
      rewrite Forall_forall in Hall. specialize (Hall e He).
      unfold keyBelow in Hall. rewrite decide_True in Hall by done.
      cbn in Hnum. lia.
    + apply NoDup_singleton.
  - rewrite length_app. cbn [length]. apply Forall_app. split.
    + eapply Forall_impl; [exact Hall|]. intros e. unfold keyBelow.
      case_decide; lia.
    + apply Forall_singleton. unfold keyBelow.
      rewrite decide_True by done. cbn. lia.
Qed.

Lemma keysBelow_push idx es e :
  keysBelow idx es → number e = idx → kind e ≠ "list" →
  keysBelow (S idx) (es ++ [e]).
Proof.
  intros [Hdup Hall] Hnum Hkind. split.
  - rewrite fmap_app. apply NoDup_app. split; [done|]. split.
    + intros k Hk Hnew. apply list_elem_of_fmap in Hk as (e' & -> & He).
      apply list_elem_of_singleton in Hnew. apply key_inj in Hnew as [Hkind' Hnum'].
      rewrite Forall_forall in Hall. specialize (Hall e' He).
      unfold keyBelow in Hall. rewrite decide_False in Hall by congruence.
      lia.
    + apply NoDup_singleton.
  - apply Forall_app. split.
    + eapply Forall_impl; [exact Hall|]. intros e'. unfold keyBelow.
      rewrite length_app. cbn [length]. case_decide; lia.
    + apply Forall_singleton. unfold keyBelow.
      rewrite decide_False by done. lia.
Qed.

Lemma keysBelow_flush idx st :
  keysBelow idx (elements st) → keysBelow idx (elements (flushList st)).
Proof.
  intros H. destruct (flushList_elements st) as [->|[items ->]]; [done|].
  by apply keysBelow_list.
Qed.

Lemma keysBelow_renderLine codeBlocks st idx line :
  keysBelow idx (elements st) →
  keysBelow (S idx) (elements (renderLine codeBlocks st idx line)).
Proof.
  intros H. pose proof (keysBelow_flush _ _ H) as Hflush.
  destruct (renderLine_cases codeBlocks st idx line)
    as [->|[->|(e & -> & Hnum & Hkind & _)]].
  - by apply keysBelow_mono.
  - by apply keysBelow_mono.
  - by apply keysBelow_push.
Qed.

Lemma keysBelow_forEach codeBlocks lines idx st :
  keysBelow idx (elements st) →
  keysBelow (idx + length lines)
    (elements (forEach codeBlocks idx lines st)).
Proof.
  revert idx st. induction lines as [|l lines IH]; intros idx st H; cbn.
  - by rewrite Nat.add_0_r.
  - replace (idx + S (length lines)) with (S idx + length lines) by lia.
    by apply IH, keysBelow_renderLine.
Qed.

(** X26. No two elements of a rendered section share a React key. *)
Theorem keys_unique content codeBlocks :
  NoDup (key <$> renderFormattedContent content codeBlocks).
Proof.
  unfold renderFormattedContent.
  eapply proj1, keysBelow_flush, (keysBelow_forEach _ _ 0).
  split; constructor.
Qed.

Lemma split_nonempty sep s : split sep s ≠ [].
Proof.
  destruct s as [|c s]; [done|]. simpl.
  case_bool_decide; [done|]. by destruct (split sep s).
Qed.

Lemma join_cons sep (piece : jsstring) pieces :
  pieces ≠ [] → join sep (piece :: pieces) = piece ++ sep ++ join sep pieces.
Proof. by destruct pieces. Qed.

Lemma join_split sep s : join [sep] (split sep s) = s.
Proof.
  induction s as [|c s IH]; [done|]. simpl.
  pose proof (split_nonempty sep s) as Hne.
  case_bool_decide as Hc.
  - rewrite join_cons by done. rewrite IH. by subst.
  - destruct (split sep s) as [|piece pieces]; [done|].
    rewrite <- IH. by destruct pieces.
Qed.

Lemma imap_partText (f : nat → jsstring → Part) l :
  (∀ i x, partText (f i x) = x) → partText <$> imap f l = l.
Proof.
  revert f. induction l as [|x l IH]; intros f Hf; [done|].
  cbn. rewrite Hf. f_equal. apply IH. intros i y. apply Hf.
Qed.

(** X27. The parts of a line with inline code, joined by backticks, are
    the line: splitting loses nothing but the backticks. *)
Theorem inline_parts_round_trip line :
  join [96%N] (partText <$> inlineParts line) = line.
Proof.
  unfold inlineParts. rewrite imap_partText; [apply join_split|].
  intros i x. by case_decide.
Qed.

End RendererFacts.
